(** * graphql-modules: module composition and resolver composition

    A shallow embedding of [GraphQLModule] (the getters [imports],
    [providers], [typeDefs], [resolvers], [injector], [contextBuilder] and
    the [context] entry point) and of the resolver composer
    ([resolveRelevantMappings], [asArray], [chainFunctions],
    [composeResolvers]), followed by the properties established for them. *)

From stdpp Require Import base option list strings gmap.
From Stdlib Require Import Ascii ZArith Lia.

Open Scope string_scope.
Open Scope list_scope.

(** ** Outcomes of evaluating JavaScript code *)

(** The only exception the modelled code can raise by itself is the
    engine's [TypeError] ([Object.keys(undefined)], [reduce] of an empty
    array without an initial value, an assignment to a property that has
    a getter and no setter). *)
Inductive JsError : Type :=
| TypeError (message : string).

(** [OutOfFuel] is the outcome of a recursion that was cut off: the getters
    of a module recurse through its imports, and nothing bounds that
    recursion in the source. [NotModelled] is the outcome of a step that
    the embedding does not follow: the code goes on, in a way that the
    definitions below do not describe (an assignment that replaces the
    prototype of an object or the constructor fields of a module by
    values that are not those of a module). *)
Inductive outcome (A : Type) : Type :=
| Returns (a : A)
| Throws (e : JsError)
| OutOfFuel
| NotModelled.

Arguments Returns {A} a.
Arguments Throws {A} e.
Arguments OutOfFuel {A}.
Arguments NotModelled {A}.

#[global] Instance outcome_ret : MRet outcome := fun A a => Returns a.

#[global] Instance outcome_bind : MBind outcome := fun A B k m =>
  match m with
  | Returns a => k a
  | Throws e => Throws e
  | OutOfFuel => OutOfFuel
  | NotModelled => NotModelled
  end.

(** [xs.forEach] / [xs.map] / [xs.reduce(f, init)] with a callback that may
    raise: the elements are visited from left to right and the first
    exception ends the loop. *)
Fixpoint foldM {A S : Type} (f : S -> A -> outcome S) (xs : list A) (s : S)
  : outcome S :=
  match xs with
  | [] => Returns s
  | x :: xs' => s' ← f s x; foldM f xs' s'
  end.

Fixpoint mapM {A B : Type} (f : A -> outcome B) (xs : list A)
  : outcome (list B) :=
  match xs with
  | [] => Returns []
  | x :: xs' => y ← f x; ys ← mapM f xs'; Returns (y :: ys)
  end.

(** ** JavaScript objects as insertion-ordered property lists *)

Section JsObject.
Context {V : Type}.

(** [o[k]] on own properties. *)
Fixpoint prop_get (o : list (string * V)) (k : string) : option V :=
  match o with
  | [] => None
  | (k', v) :: o' => if String.eqb k' k then Some v else prop_get o' k
  end.

(** [o[k] = v]: an existing key keeps its position, a new key goes last. *)
Fixpoint prop_set (o : list (string * V)) (k : string) (v : V)
  : list (string * V) :=
  match o with
  | [] => [(k, v)]
  | (k', v') :: o' =>
      if String.eqb k' k then (k', v) :: o' else (k', v') :: prop_set o' k v
  end.

(** [Object.keys(o)]. *)
Definition keys (o : list (string * V)) : list string := map fst o.

Definition has_key (o : list (string * V)) (k : string) : bool :=
  match prop_get o k with Some _ => true | None => false end.
End JsObject.

(** ** Strings *)

(** [s.split(sep)] for a one-character separator. *)
Fixpoint split (sep : ascii) (s : string) : list string :=
  match s with
  | EmptyString => [EmptyString]
  | String c rest =>
      if Ascii.eqb c sep then EmptyString :: split sep rest
      else match split sep rest with
           | seg :: segs => String c seg :: segs
           | [] => [String c EmptyString]
           end
  end.

Definition dot : ascii := "."%char.

Fixpoint no_dot (s : string) : bool :=
  match s with
  | EmptyString => true
  | String c rest => negb (Ascii.eqb c dot) && no_dot rest
  end.

Fixpoint no_bracket (s : string) : bool :=
  match s with
  | EmptyString => true
  | String c rest =>
      negb (Ascii.eqb c "["%char) && negb (Ascii.eqb c "]"%char)
      && no_bracket rest
  end.

(** A name that lodash reads as one path segment: no dot and no bracket. *)
Definition plain (s : string) : bool := no_dot s && no_bracket s.

(** ** resolvers-composition.ts *)

Section ResolversComposition.
Context {Resolver : Type}.

(** The value held at [resolvers[Type][field]]: a resolver function, or
    [undefined] ([None]). *)
Definition FieldValue : Type := option Resolver.

(** [IResolvers]: type name -> field name -> resolver. *)
Definition IResolverObject : Type := list (string * FieldValue).
Definition IResolvers : Type := list (string * IResolverObject).

(** A composer takes the next resolver and gives the wrapped one. *)
Definition Composer : Type := FieldValue -> FieldValue.

(** [any | any[]]: one function or an array of functions. *)
Inductive ComposeFns : Type :=
| Single (fn : Composer)
| Multiple (fns : list Composer).

(** [IResolversComposerMapping], in [Object.keys] order. *)
Definition IResolversComposerMapping : Type := list (string * ComposeFns).

(** A JavaScript function value called with an argument list. *)
Definition JsFunction : Type := list FieldValue -> FieldValue.

(** A composer called as [a(x)]: its first argument, [undefined] if none. *)
Definition call1 (fn : Composer) : JsFunction :=
  fun args => fn (match args with x :: _ => x | [] => None end).

(** The property names that every object literal inherits from
    [Object.prototype]: [o[name]] is defined for them although [name] is
    no own property of [o]. *)
Definition object_prototype_names : list string :=
  ["constructor"; "toString"; "toLocaleString"; "valueOf"; "hasOwnProperty";
   "isPrototypeOf"; "propertyIsEnumerable"; "__proto__"; "__defineGetter__";
   "__defineSetter__"; "__lookupGetter__"; "__lookupSetter__"].

Definition inherited_name (name : string) : bool :=
  existsb (String.eqb name) object_prototype_names.

(** lodash [get(resolvers, path)] and [set(resolvers, path, value)] on a
    path of two plain segments, the only paths [composeResolvers] builds
    from plain type and field names. [set] creates the type's object when
    it is missing. Paths with another number of segments lie outside the
    two-level map and are left alone. Both follow the own properties of
    the map: they are those of lodash for type and field names that are
    not [inherited_name]s (for which [get] finds the function of
    [Object.prototype]) and not [prototype], [constructor] or [__proto__]
    (which [set] may refuse to write); the statements that read a field
    the map does not own say so. *)
Definition get (resolvers : IResolvers) (path : string) : FieldValue :=
  match split dot path with
  | [typeName; fieldName] =>
      match prop_get resolvers typeName with
      | Some fields =>
          match prop_get fields fieldName with
          | Some v => v
          | None => None
          end
      | None => None
      end
  | _ => None
  end.

Definition set (resolvers : IResolvers) (path : string) (value : FieldValue)
  : IResolvers :=
  match split dot path with
  | [typeName; fieldName] =>
      let fields :=
        match prop_get resolvers typeName with
        | Some fields => fields
        | None => []
        end in
      prop_set resolvers typeName (prop_set fields fieldName value)
  | _ => resolvers
  end.

(** The values of a mapping are functions or arrays, all truthy, so that
    [!allMappings[mapItem]] says that [mapItem] is not a key of the
    mapping. [Object.keys(resolvers[typeName])] raises when
    [resolvers[typeName]] is [undefined]: the type is no own property of
    the map and no inherited name. For an inherited name it is a function
    or the prototype itself, which have no enumerable property. *)
Definition resolveRelevantMappings (resolvers : IResolvers) (path : string)
    (allMappings : IResolversComposerMapping) : outcome (list string) :=
  match split dot path with
  | [typeName; fieldName] =>
      if String.eqb fieldName "*" then
        match prop_get resolvers typeName with
        | None =>
            if inherited_name typeName then Returns []
            else
              Throws (TypeError "Cannot convert undefined or null to object")
        | Some fields =>
            Returns
              (filter (fun mapItem => has_key allMappings mapItem = false)
                 (map (fun field => typeName +:+ "." +:+ field)
                    (keys fields)))
        end
      else Returns [path]
  | _ => Returns []
  end.

Definition asArray (fns : ComposeFns) : list Composer :=
  match fns with
  | Single fn => [fn]
  | Multiple fns => fns
  end.

(** [funcs.reduce((a, b) => (...args) => a(b(...args)))] has no initial
    value: it starts from the first function and raises on an empty
    array. *)
Definition chainFunctions (funcs : list JsFunction) : outcome JsFunction :=
  match funcs with
  | [fn] => Returns fn
  | [] => Throws (TypeError "Reduce of empty array with no initial value")
  | first :: rest =>
      Returns (fold_left (fun a b => fun args => a [b args]) rest first)
  end.

(** The body of [relevantFields.forEach]. *)
Definition composeField (composeFns : ComposeFns) (resolvers : IResolvers)
    (path : string) : outcome IResolvers :=
  fns ← chainFunctions
           (map call1 (asArray composeFns) ++ [fun _ => get resolvers path]);
  Returns (set resolvers path (fns [])).

(** The body of [Object.keys(mapping).map]. *)
Definition composeEntry (mapping : IResolversComposerMapping)
    (resolvers : IResolvers) (entry : string * ComposeFns)
  : outcome IResolvers :=
  let '(resolverPath, composeFns) := entry in
  relevantFields ← resolveRelevantMappings resolvers resolverPath mapping;
  foldM (composeField composeFns) relevantFields resolvers.

(** [resolvers] is updated in place and returned; the state is threaded. *)
Definition composeResolvers (resolvers : IResolvers)
    (mapping : IResolversComposerMapping) : outcome IResolvers :=
  foldM (composeEntry mapping) mapping resolvers.
End ResolversComposition.

Arguments IResolvers : clear implicits.
Arguments IResolverObject : clear implicits.
Arguments FieldValue : clear implicits.
Arguments Composer : clear implicits.
Arguments ComposeFns : clear implicits.
Arguments IResolversComposerMapping : clear implicits.

(** ** graphql-module.ts *)

(** Object identities. Modules, context objects and injectors are objects;
    a module is referred to by its identity, as the [imports] arrays do. *)
Definition loc : Type := nat.
Definition ModuleRef : Type := loc.

(** Values stored in the fields of a context object. *)
Inductive value : Type :=
| VUndefined
| VNumber (n : Z)
| VString (s : string)
| VRef (l : loc).

(** What a context builder hands back: nothing, a plain object with the
    given fields, or (an [async] builder) a promise of such an object. A
    promise has no own enumerable property. *)
Inductive BuilderResult : Type :=
| ResultUndefined
| ResultObject (fields : list (string * value))
| ResultPromise (fields : list (string * value)).

Definition result_fields (r : BuilderResult) : list (string * value) :=
  match r with
  | ResultObject fields => fields
  | ResultUndefined | ResultPromise _ => []
  end.

(** Modelled from the spec: the injection tokens of ./di/types, which is
    not among the sources: an explicit identifier, here [Symbol.for(key)]
    as [ModuleConfig] builds it, or a class standing for itself. *)
Inductive Token : Type :=
| SymbolFor (key : string)
| ClassToken (className : string).

Section GraphQLModule.
Context {Config Request Resolver DocumentNode Injector : Type}.

(** [print] of graphql, [mergeGraphQLSchemas] and [mergeResolvers] of
    epoxy: libraries outside the repository. *)
Variable print : DocumentNode -> string.

Inductive Fragment : Type :=
| SDL (s : string)
| AST (d : DocumentNode).

(** [string | DocumentNode | string[] | DocumentNode[]]. *)
Inductive TypeDefs : Type :=
| One (fragment : Fragment)
| Many (fragments : list Fragment).

Variable mergeGraphQLSchemas : list TypeDefs -> string.
Variable mergeResolvers : list (IResolvers Resolver) -> IResolvers Resolver.

(** Modelled from the spec: the [Provider] type of ./di/types, which is
    not among the sources: a token with its supplier, the supplier being a
    constructible class (provided under itself) or a literal value, as in
    [{ provide: ModuleConfig(this), useValue: this._moduleConfig }]. *)
Inductive Provider : Type :=
| ClassProvider (className : string)
| ValueProvider (provide : Token) (useValue : Config).

(** The [Injector] class of ./di is not among the sources:
    [new Injector()], [provide] and [init] are taken as given. *)
Variable newInjector : Injector.
Variable injector_provide : Injector -> Provider -> Injector.
Variable injector_init : Injector -> Provider -> Injector.

(** The store a context builder can read: the own enumerable properties
    of every object. *)
Definition Heap : Type := gmap loc (list (string * value)).

(** [(networkRequest, currentContext, injector) => Promise<Context>].
    A builder reads the store and does not write it. *)
Definition BuildContextFn : Type :=
  Heap -> Request -> value -> value -> BuilderResult.

Inductive TypeDefsDefinition : Type :=
| TypeDefsLiteral (t : TypeDefs)
| TypeDefsFunction (f : Config -> TypeDefs).

Inductive ResolversDefinition : Type :=
| ResolversLiteral (r : IResolvers Resolver)
| ResolversFunction (f : Config -> IResolvers Resolver).

Inductive ImportsDefinition : Type :=
| ImportsArray (modules : list ModuleRef)
| ImportsFunction (f : Config -> list ModuleRef).

Inductive ProvidersDefinition : Type :=
| ProvidersArray (ps : list Provider)
| ProvidersFunction (f : Config -> list Provider).

Inductive CompositionDefinition : Type :=
| CompositionLiteral (m : IResolversComposerMapping Resolver)
| CompositionFunction (f : Config -> IResolversComposerMapping Resolver).

(** [GraphQLModuleOptions]; [None] is an option left out. *)
Record GraphQLModuleOptions : Type := {
  options_name : string;
  options_typeDefs : option TypeDefsDefinition;
  options_resolvers : option ResolversDefinition;
  options_contextBuilder : option BuildContextFn;
  options_imports : option ImportsDefinition;
  options_providers : option ProvidersDefinition;
  options_resolversComposition : option CompositionDefinition;
}.

Record GraphQLModule : Type := {
  _options : GraphQLModuleOptions;
  _moduleConfig : Config;
}.

Definition ModuleConfig (module : string + GraphQLModule) : Token :=
  SymbolFor ("ModuleConfig." +:+
             match module with
             | inl name => name
             | inr m => options_name (_options m)
             end).

Definition withConfig (this : GraphQLModule) (config : Config)
  : GraphQLModule :=
  {| _options := _options this; _moduleConfig := config |}.

(** [get imports()]. *)
Definition imports (this : GraphQLModule) : list ModuleRef :=
  match options_imports (_options this) with
  | Some (ImportsFunction f) => f (_moduleConfig this)
  | Some (ImportsArray modules) => modules
  | None => []
  end.

(** The module's own list, built before the imports are visited. *)
Definition ownProviders (this : GraphQLModule) : list Provider :=
  [ValueProvider (ModuleConfig (inr this)) (_moduleConfig this)] ++
  match options_providers (_options this) with
  | Some (ProvidersFunction f) => f (_moduleConfig this)
  | Some (ProvidersArray ps) => ps
  | None => []
  end.

(** [if (typeDefsDefinitions)]: an absent option and the empty string
    are falsy. *)
Definition typeDefs_truthy (d : TypeDefsDefinition) : bool :=
  match d with
  | TypeDefsLiteral (One (SDL s)) => negb (String.eqb s "")
  | _ => true
  end.

(** The local [typeDefs] of [get typeDefs()] before the final merge. *)
Definition ownTypeDefs (this : GraphQLModule) : TypeDefs :=
  match options_typeDefs (_options this) with
  | Some d =>
      if typeDefs_truthy d then
        match d with
        | TypeDefsFunction f => f (_moduleConfig this)
        | TypeDefsLiteral (Many items) =>
            One (SDL (mergeGraphQLSchemas (map One items)))
        | TypeDefsLiteral (One (SDL s)) => One (SDL s)
        | TypeDefsLiteral (One (AST d)) => One (SDL (print d))
        end
      else Many []
  | None => Many []
  end.

(** The local [resolvers] of [get resolvers()] before the merge. *)
Definition ownResolvers (this : GraphQLModule) : IResolvers Resolver :=
  match options_resolvers (_options this) with
  | Some (ResolversFunction f) => f (_moduleConfig this)
  | Some (ResolversLiteral r) => r
  | None => []
  end.

(** The modules of the program, by identity. *)
Variable modules : ModuleRef -> GraphQLModule.

(** [get providers()]. *)
Fixpoint providers (fuel : nat) (this : ModuleRef)
  : outcome (list Provider) :=
  match fuel with
  | 0 => OutOfFuel
  | S fuel =>
      let own := ownProviders (modules this) in
      acc ← foldM (fun acc module =>
                     ps ← providers fuel module; Returns (ps ++ acc))
                  (imports (modules this)) [];
      Returns (acc ++ own)
  end.

(** [get typeDefs()]. *)
Fixpoint typeDefs (fuel : nat) (this : ModuleRef) : outcome string :=
  match fuel with
  | 0 => OutOfFuel
  | S fuel =>
      let own := ownTypeDefs (modules this) in
      imported ← mapM (typeDefs fuel) (imports (modules this));
      Returns (mergeGraphQLSchemas
                 (map (fun s => One (SDL s)) imported ++ [own]))
  end.

(** [get resolvers()]. *)
Fixpoint resolvers (fuel : nat) (this : ModuleRef)
  : outcome (IResolvers Resolver) :=
  match fuel with
  | 0 => OutOfFuel
  | S fuel =>
      let own := ownResolvers (modules this) in
      imported ← mapM (resolvers fuel) (imports (modules this));
      Returns (mergeResolvers (imported ++ [own]))
  end.

(** [get injector()]. *)
Definition injector (fuel : nat) (this : ModuleRef) : outcome Injector :=
  ps ← providers fuel this;
  Returns (fold_left
             (fun inj provider =>
                injector_init (injector_provide inj provider) provider)
             ps newInjector).

(** The state of a request: the properties of the objects (for a module
    object, those it has besides [_options] and [_moduleConfig]), the
    injectors built so far, the next free identity, and a record of the
    calls of [contextBuilderDefinition] (the module whose definition, or
    empty default, was called, and the current-context argument it
    received). *)
Record World : Type := {
  objects : Heap;
  injectors : gmap loc Injector;
  next : loc;
  calls : list (ModuleRef * value);
}.

Definition own_props (w : World) (l : loc) : list (string * value) :=
  match objects w !! l with
  | Some props => props
  | None => []
  end.

(** The accessors of the class: each is declared with [get] and without
    [set], on the prototype. *)
Definition accessors : list string :=
  ["providers"; "typeDefs"; "resolvers"; "imports"; "schema"; "injector";
   "contextBuilder"].

Definition is_accessor (key : string) : bool :=
  existsb (String.eqb key) accessors.

(** The fields that the constructor declares. They are own enumerable
    properties of every module; the module table holds their values and
    the store holds the other own properties of a module object. *)
Definition is_slot (key : string) : bool :=
  String.eqb key "_options" || String.eqb key "_moduleConfig".

(** The error of an assignment to a property of a module that has a
    getter and no setter. *)
Definition getter_only (key : string) : JsError :=
  TypeError ("Cannot set property " +:+ key +:+
             " of #<GraphQLModule> which has only a getter").

(** [target[key] = v] for every own enumerable property of the source, in
    order, as [Object.assign] does it. On a module, a key that is an
    accessor of the class and no own property raises the [TypeError] of
    an assignment to a property without a setter. *)
Fixpoint assign_props (targetIsModule : bool)
    (source target : list (string * value))
  : outcome (list (string * value)) :=
  match source with
  | [] => Returns target
  | (key, v) :: source' =>
      if String.eqb key "__proto__" then NotModelled
      else if targetIsModule && is_slot key then NotModelled
      else if targetIsModule && is_accessor key && negb (has_key target key)
      then Throws (getter_only key)
      else assign_props targetIsModule source' (prop_set target key v)
  end.

(** What [Object.assign] copies from: a module object, another object of
    the store, or a value that is in no store yet (what a context builder
    handed back). *)
Inductive AssignSource : Type :=
| SourceModule (module : ModuleRef)
| SourceObject (l : loc)
| SourceFields (fields : list (string * value)).

Definition set_module (modules : ModuleRef -> GraphQLModule)
    (target : ModuleRef) (m : GraphQLModule) : ModuleRef -> GraphQLModule :=
  fun module => if Nat.eqb module target then m else modules module.

(** [Object.assign(target, source)]; the target is returned by the caller.
    From a module to a module, [_options] and [_moduleConfig] are copied
    with the other properties: the target is from then on a module with
    the options and the configuration of the source. From a module to an
    object that is no module, the two fields would become properties of
    that object, which the store does not hold: the code never does it. *)
Definition Object_assign (w : World) (modules : ModuleRef -> GraphQLModule)
    (target : loc) (targetIsModule : bool) (source : AssignSource)
  : outcome (World * (ModuleRef -> GraphQLModule)) :=
  let fields :=
    match source with
    | SourceModule l | SourceObject l => own_props w l
    | SourceFields fields => fields
    end in
  match source, targetIsModule with
  | SourceModule _, false => NotModelled
  | _, _ =>
      props ← assign_props targetIsModule fields (own_props w target);
      Returns
        (match fields with
         | [] => w
         | _ =>
             {| objects := <[target := props]> (objects w);
                injectors := injectors w;
                next := next w;
                calls := calls w |}
         end,
         match source with
         | SourceModule module => set_module modules target (modules module)
         | _ => modules
         end)
  end.

Definition log_call (w : World) (m : ModuleRef) (currentContext : value)
  : World :=
  {| objects := objects w; injectors := injectors w; next := next w;
     calls := calls w ++ [(m, currentContext)] |}.

(** [get contextBuilder()], applied to its three arguments. [reduce] is
    called without an initial value: the accumulator starts as the first
    import, a module object, and [builtResult] is the third argument of
    the inner [Object.assign]. [builtResultIsModule] says whether
    [builtResult] is a module object: it is in the calls the loop makes,
    which pass the accumulator, and it is not in the call [context]
    makes. The module table is threaded with the store, since the loop
    assigns modules to modules. *)
Fixpoint contextBuilder (modules : ModuleRef -> GraphQLModule) (fuel : nat)
    (this : ModuleRef) (request : Request) (builtResult : loc)
    (builtResultIsModule : bool) (inj : value) (w : World) {struct fuel}
  : outcome (loc * World * (ModuleRef -> GraphQLModule)) :=
  match fuel with
  | 0 => OutOfFuel
  | S fuel =>
      let contextBuilderDefinition : BuildContextFn :=
        match options_contextBuilder (_options (modules this)) with
        | Some b => b
        | None => fun _ _ _ _ => ResultUndefined
        end in
      match imports (modules this) with
      | [] =>
          Throws (TypeError "Reduce of empty array with no initial value")
      | first :: rest =>
          st ← foldM
                 (fun (st : loc * World * (ModuleRef -> GraphQLModule))
                      module =>
                    let '(acc, w, modules) := st in
                    r ← contextBuilder modules fuel module request acc true
                          inj w;
                    let '(result, w, modules) := r in
                    st ← Object_assign w modules acc true
                           (SourceModule result);
                    let '(w, modules) := st in
                    st ← Object_assign w modules acc true
                           (if builtResultIsModule
                            then SourceModule builtResult
                            else SourceObject builtResult);
                    let '(w, modules) := st in
                    Returns (acc, w, modules))
                 rest (first, w, modules);
          let '(acc, w, modules) := st in
          let result :=
            contextBuilderDefinition (objects w) request (VRef acc) inj in
          let w := log_call w this (VRef acc) in
          st ← Object_assign w modules builtResult builtResultIsModule
                 (SourceFields (result_fields result));
          let '(w, modules) := st in
          Returns (builtResult, w, modules)
      end
  end.

(** [context(request)]. The function is [async]: an exception is the
    rejection of the promise it returns. The aggregate is a new object
    literal. What is returned is the aggregate, with the store. The
    composed builder assigns modules to modules only in its loop over
    the imports after the first, whose first step also assigns the
    aggregate, which holds [injector] here, to a module; the module table
    is not part of the result. *)
Definition context (fuel : nat) (this : ModuleRef) (request : Request)
    (w : World) : outcome (loc * World) :=
  i ← injector fuel this;
  let l_injector := next w in
  let builtResult := S (next w) in
  let w :=
    {| objects := <[builtResult := [("injector", VRef l_injector)]]> (objects w);
       injectors := <[l_injector := i]> (injectors w);
       next := S (S (next w));
       calls := calls w |} in
  r ← contextBuilder modules fuel this request builtResult false
        (VRef l_injector) w;
  let '(result, w, modules') := r in
  st ← Object_assign w modules' builtResult false (SourceObject result);
  Returns (builtResult, fst st).

(** The shape the recursive getters share: the getter of every import,
    in import order, then a combination of the results. *)
Fixpoint walk {A : Type} (combine : ModuleRef -> list A -> A)
    (fuel : nat) (this : ModuleRef) : outcome A :=
  match fuel with
  | 0 => OutOfFuel
  | S fuel =>
      imported ← mapM (walk combine fuel) (imports (modules this));
      Returns (combine this imported)
  end.

(** The import graph has no cycle: imports go down a rank. *)
Definition acyclic (rank : ModuleRef -> nat) : Prop :=
  forall this module,
    In module (imports (modules this)) -> rank module < rank this.

(** [cyclic_from inside]: every module of [inside] imports a module of
    [inside], so that a walk from any of them meets a cycle. *)
Definition cyclic_from (inside : ModuleRef -> Prop) : Prop :=
  forall this,
    inside this ->
    exists module, In module (imports (modules this)) /\ inside module.
End GraphQLModule.

Section WithoutComposition.
Context {Config Request Resolver DocumentNode : Type}.

(** The same options with [resolversComposition] left out. *)
Definition withoutComposition
    (m : GraphQLModule (Config := Config) (Request := Request)
           (Resolver := Resolver) (DocumentNode := DocumentNode))
  : GraphQLModule :=
  {| _options :=
       {| options_name := options_name (_options m);
          options_typeDefs := options_typeDefs (_options m);
          options_resolvers := options_resolvers (_options m);
          options_contextBuilder := options_contextBuilder (_options m);
          options_imports := options_imports (_options m);
          options_providers := options_providers (_options m);
          options_resolversComposition := None |};
     _moduleConfig := _moduleConfig m |}.
End WithoutComposition.

Arguments Provider : clear implicits.
Arguments Fragment : clear implicits.
Arguments TypeDefs : clear implicits.

(** ** Vocabulary of the statements *)

Section Vocabulary.
Context {Resolver : Type}.

(** The property [field] of [resolvers[typeName]], when both exist. *)
Definition lookup2 (resolvers : IResolvers Resolver)
    (typeName fieldName : string) : option (FieldValue Resolver) :=
  match prop_get resolvers typeName with
  | Some fields => prop_get fields fieldName
  | None => None
  end.

(** [c1(c2(...cn(v)))] for the composers [c1; c2; ...; cn]. *)
Definition composed (fns : ComposeFns Resolver) (v : FieldValue Resolver)
  : FieldValue Resolver :=
  fold_right (fun c acc => c acc) v (asArray fns).

(** A resolver map as an object literal gives it: no key twice in an
    object, and type and field names that are single path segments. *)
Definition wf_resolvers (resolvers : IResolvers Resolver) : Prop :=
  NoDup (keys resolvers) /\
  Forall (fun typeName => plain typeName = true) (keys resolvers) /\
  forall typeName fields,
    prop_get resolvers typeName = Some fields ->
    NoDup (keys fields) /\
    Forall (fun fieldName => plain fieldName = true) (keys fields).

(** A composition mapping: no key twice, and no bracket in a path. *)
Definition wf_mapping (mapping : IResolversComposerMapping Resolver) : Prop :=
  NoDup (keys mapping) /\
  Forall (fun path => no_bracket path = true) (keys mapping).

(** Every wildcard entry names a type of the resolver map. *)
Definition wildcards_present (resolvers : IResolvers Resolver)
    (mapping : IResolversComposerMapping Resolver) : Prop :=
  forall path typeName,
    In path (keys mapping) ->
    split dot path = [typeName; "*"] ->
    has_key resolvers typeName = true.

(** [relevantFields.forEach] as a pure map update. *)
Definition wrapAll (fns : ComposeFns Resolver) (paths : list string)
    (resolvers : IResolvers Resolver) : IResolvers Resolver :=
  fold_left (fun r path => set r path (composed fns (get r path)))
    paths resolvers.

(** The mapping entry at [path] rewrites [resolvers[typeName][fieldName]]:
    it is the field's own entry, or the wildcard of its type while the
    field has no entry of its own in [allMappings]. *)
Definition fires (allMappings : IResolversComposerMapping Resolver)
    (typeName fieldName path : string) : bool :=
  String.eqb path (typeName +:+ "." +:+ fieldName)
  || (String.eqb path (typeName +:+ ".*")
      && negb (has_key allMappings (typeName +:+ "." +:+ fieldName))).

(** The value a field ends with after the entries [entries] were
    applied in order. *)
Fixpoint composition_of (allMappings : IResolversComposerMapping Resolver)
    (typeName fieldName : string)
    (entries : IResolversComposerMapping Resolver)
    (v : FieldValue Resolver) : FieldValue Resolver :=
  match entries with
  | [] => v
  | (path, fns) :: entries' =>
      composition_of allMappings typeName fieldName entries'
        (if fires allMappings typeName fieldName path
         then composed fns v else v)
  end.

(** No object of the map lists a field twice. *)
Definition fields_unique (resolvers : IResolvers Resolver) : Prop :=
  forall typeName fields,
    prop_get resolvers typeName = Some fields -> NoDup (keys fields).
End Vocabulary.

(** ** Sample programs *)

(** Resolvers are named by strings here; a composer writes its name around
    the resolver it wraps. *)
Definition wrapper (name : string) : Composer string :=
  fun next =>
    Some (name +:+ "(" +:+
          match next with Some r => r | None => "undefined" end +:+ ")").

Definition sample_resolvers : IResolvers string :=
  [("Query", [("me", Some "me"); ("users", Some "users")]);
   ("User", [("id", Some "id")])].

Definition sample_mapping : IResolversComposerMapping string :=
  [("Query.*", Single (wrapper "log"));
   ("Query.me", Multiple [wrapper "auth"; wrapper "audit"]);
   ("Query", Single (wrapper "stray"))].

(** A program in the manner of examples/basic: configurations, requests
    and resolvers are strings, a parsed document is the list of its
    definitions, and the injector keeps the providers it was given. *)
Definition SampleModule : Type :=
  GraphQLModule (Config := string) (Request := string) (Resolver := string)
    (DocumentNode := list string).

Definition sample_print (d : list string) : string := String.concat " " d.

Definition fragment_text (f : Fragment (list string)) : string :=
  match f with
  | SDL s => s
  | AST d => sample_print d
  end.

Definition sample_mergeGraphQLSchemas (types : list (TypeDefs (list string)))
  : string :=
  String.concat " "
    (flat_map (fun t => match t with
                        | One f => [fragment_text f]
                        | Many fs => map fragment_text fs
                        end) types).

(** Later maps override earlier ones field by field. *)
Definition sample_mergeResolvers (maps : list (IResolvers string))
  : IResolvers string :=
  fold_left
    (fun merged r =>
       fold_left
         (fun merged typeEntry =>
            fold_left
              (fun merged fieldEntry =>
                 set merged (fst typeEntry +:+ "." +:+ fst fieldEntry)
                   (snd fieldEntry))
              (snd typeEntry) merged)
         r merged)
    maps [].

Definition sample_provide (inj : list (Provider string)) (p : Provider string)
  : list (Provider string) := inj ++ [p].

Definition sample_init (inj : list (Provider string)) (p : Provider string)
  : list (Provider string) := inj.

(** A context builder that ignores its arguments; [async] says whether it
    is declared [async] and so hands back a promise. *)
Definition builder (async : bool) (fields : list (string * value))
  : BuildContextFn (Request := string) :=
  fun _ _ _ _ => if async then ResultPromise fields else ResultObject fields.

Definition emptyModule : SampleModule :=
  {| _options :=
       {| options_name := ""; options_typeDefs := None;
          options_resolvers := None; options_contextBuilder := None;
          options_imports := None; options_providers := None;
          options_resolversComposition := None |};
     _moduleConfig := "" |}.

(** App (0) imports Auth (1) and Blog (3); Auth and Blog import User (2);
    Gateway (4) imports Auth only. *)
Definition app_modules (async : bool) (m : ModuleRef) : SampleModule :=
  match m with
  | 0 =>
      {| _options :=
           {| options_name := "App";
              options_typeDefs := Some (TypeDefsLiteral (One (SDL "type App")));
              options_resolvers := None;
              options_contextBuilder :=
                Some (builder async [("app", VNumber 0)]);
              options_imports := Some (ImportsArray [1; 3]);
              options_providers :=
                Some (ProvidersArray [ClassProvider "AppService"]);
              options_resolversComposition := None |};
         _moduleConfig := "app-config" |}
  | 1 =>
      {| _options :=
           {| options_name := "Auth";
              options_typeDefs :=
                Some (TypeDefsLiteral (One (AST ["type Query"; "type User"])));
              options_resolvers :=
                Some (ResolversLiteral
                        [("User", [("id", Some "id")]);
                         ("Query", [("me", Some "me")])]);
              options_contextBuilder :=
                Some (builder async [("authenticatedUser", VNumber 1)]);
              options_imports := Some (ImportsArray [2]);
              options_providers := None;
              options_resolversComposition :=
                Some (CompositionLiteral
                        [("Query.me", Single (wrapper "auth"))]) |};
         _moduleConfig := "" |}
  | 2 =>
      {| _options :=
           {| options_name := "User";
              options_typeDefs :=
                Some (TypeDefsLiteral (Many [SDL "type User"; SDL "type Query"]));
              options_resolvers :=
                Some (ResolversLiteral [("Query", [("users", Some "users")])]);
              options_contextBuilder :=
                Some (builder async [("authenticatedUser", VNumber 2);
                                     ("users", VNumber 7)]);
              options_imports := None;
              options_providers := Some (ProvidersArray [ClassProvider "Users"]);
              options_resolversComposition := None |};
         _moduleConfig := "" |}
  | 3 =>
      {| _options :=
           {| options_name := "Blog";
              options_typeDefs :=
                Some (TypeDefsFunction
                        (fun config => Many [SDL "type Post"; SDL config]));
              options_resolvers := None;
              options_contextBuilder :=
                Some (builder async [("posts", VNumber 3)]);
              options_imports := Some (ImportsFunction (fun _ => [2]));
              options_providers :=
                Some (ProvidersFunction (fun _ => [ClassProvider "Posts"]));
              options_resolversComposition := None |};
         _moduleConfig := "type Comment" |}
  | 4 =>
      {| _options :=
           {| options_name := "Gateway";
              options_typeDefs := Some (TypeDefsLiteral (One (SDL "type Gateway")));
              options_resolvers := None;
              options_contextBuilder := None;
              options_imports := Some (ImportsArray [1]);
              options_providers := None;
              options_resolversComposition := None |};
         _moduleConfig := "" |}
  | _ => emptyModule
  end.

Definition app_rank (m : ModuleRef) : nat :=
  match m with
  | 0 => 2
  | 1 => 1
  | 3 => 1
  | 4 => 2
  | _ => 0
  end.

(** A imports B through a function, B imports A. *)
Definition cyclic_modules (m : ModuleRef) : SampleModule :=
  {| _options :=
       {| options_name := match m with 0 => "A" | _ => "B" end;
          options_typeDefs := None; options_resolvers := None;
          options_contextBuilder := None;
          options_imports :=
            match m with
            | 0 => Some (ImportsFunction (fun _ => [1]))
            | 1 => Some (ImportsArray [0])
            | _ => None
            end;
          options_providers := None;
          options_resolversComposition := None |};
     _moduleConfig := "" |}.

(** The own enumerable properties of a [GraphQLModule] instance besides
    its constructor fields: the [context] function, a function object. *)
Definition module_object (bound : loc) : list (string * value) :=
  [("context", VRef bound)].

(** The modules 0 to 4 as objects, an injector at 200 and the aggregate
    [{ injector }] at 201. *)
Definition request_world : World (Injector := list (Provider string)) :=
  {| objects :=
       <[201 := [("injector", VRef 200)]]>
         (<[0 := module_object 100]>
            (<[1 := module_object 110]>
               (<[2 := module_object 120]>
                  (<[3 := module_object 130]>
                     (<[4 := module_object 140]> ∅)))));
     injectors := <[200 := []]> ∅;
     next := 202;
     calls := [] |}.

(** The same with the empty aggregate [{}] at 201. *)
Definition bare_world : World (Injector := list (Provider string)) :=
  {| objects := <[201 := []]> (objects request_world);
     injectors := injectors request_world;
     next := next request_world;
     calls := [] |}.

(** Main (0) imports First (1), Second (2) and Third (3); First imports
    Leaf (5); Second imports Third and Fourth (4); Fourth imports Leaf;
    Third and Leaf import nothing. Every builder hands back one field
    named after its module. *)
Definition shadow_module (name : string) (imported : list ModuleRef)
    (fields : list (string * value)) : SampleModule :=
  {| _options :=
       {| options_name := name; options_typeDefs := None;
          options_resolvers := None;
          options_contextBuilder := Some (builder false fields);
          options_imports := Some (ImportsArray imported);
          options_providers := None;
          options_resolversComposition := None |};
     _moduleConfig := name +:+ "-config" |}.

Definition shadow_modules (m : ModuleRef) : SampleModule :=
  match m with
  | 0 => shadow_module "Main" [1; 2; 3] [("main", VNumber 0)]
  | 1 => shadow_module "First" [5] [("first", VNumber 1)]
  | 2 => shadow_module "Second" [3; 4] [("second", VNumber 2)]
  | 3 => shadow_module "Third" [] [("third", VNumber 3)]
  | 4 => shadow_module "Fourth" [5] [("fourth", VNumber 4)]
  | _ => shadow_module "Leaf" [] [("leaf", VNumber 5)]
  end.

(** The modules 0 to 5 as objects and the empty aggregate [{}] at 201. *)
Definition shadow_world : World (Injector := list (Provider string)) :=
  {| objects :=
       <[201 := []]>
         (<[0 := module_object 100]>
            (<[1 := module_object 110]>
               (<[2 := module_object 120]>
                  (<[3 := module_object 130]>
                     (<[4 := module_object 140]>
                        (<[5 := module_object 150]> ∅))))));
     injectors := <[200 := []]> ∅;
     next := 202;
     calls := [] |}.

(** ** Vocabulary of the further properties *)

Section FurtherVocabulary.
Context {Resolver : Type}.

(** [f1(f2(...fn(...args)))]: the calls that the function built by
    [chainFunctions] makes, the last function receiving the arguments. *)
Fixpoint nested_call (funcs : list (JsFunction (Resolver := Resolver)))
    (args : list (FieldValue Resolver)) : FieldValue Resolver :=
  match funcs with
  | [] => None
  | fn :: rest =>
      match rest with
      | [] => fn args
      | _ :: _ => fn [nested_call rest args]
      end
  end.

(** The mapping with every value written as an array: a function alone
    becomes the array of that function. *)
Definition arrayForm (mapping : IResolversComposerMapping Resolver)
  : IResolversComposerMapping Resolver :=
  map (fun entry =>
         (fst entry,
          match snd entry with
          | Single fn => Multiple [fn]
          | Multiple fns => Multiple fns
          end)) mapping.



(** [path] is a wildcard [Type.*]. *)
Definition is_wildcard (path : string) : bool :=
  match split dot path with
  | [_; fieldName] => String.eqb fieldName "*"
  | _ => false
  end.


End FurtherVocabulary.

Section Reachability.
Context {Config Request Resolver DocumentNode : Type}.
Variable modules :
  ModuleRef ->
  GraphQLModule (Config := Config) (Request := Request)
    (Resolver := Resolver) (DocumentNode := DocumentNode).

(** [reaches this m]: [m] is [this] or is imported, directly or through
    other modules, by [this]. *)
Inductive reaches : ModuleRef -> ModuleRef -> Prop :=
| reaches_self this : reaches this this
| reaches_import this module m :
    In module (imports (modules this)) -> reaches module m -> reaches this m.

(** [module] is the first import of some module. *)
Definition first_import (module : ModuleRef) : Prop :=
  exists this rest, imports (modules this) = module :: rest.

(** [modules'] holds no module that [modules] did not hold: every entry
    is an entry of [modules], maybe under another identity. *)
Definition table_from
    (modules' : ModuleRef ->
                GraphQLModule (Config := Config) (Request := Request)
                  (Resolver := Resolver) (DocumentNode := DocumentNode))
  : Prop :=
  forall m, exists source, modules' m = modules source.

(** What a call of the composed context builder that returns has done:
    it returns [builtResult]; it allocates nothing and builds no injector;
    the module has a first import, and the last call recorded is that of
    the module's own builder, with the first import as current context;
    apart from [builtResult], only objects that are the first import of
    some module were written, and only such modules have new options; no
    property of any object was removed; and when [builtResult] is a module
    object, no object has gained or lost a property named as an accessor
    of the class. *)
Definition builder_effect {Injector : Type} (this : ModuleRef)
    (builtResult : loc) (builtResultIsModule : bool)
    (w : World (Injector := Injector))
    (out : loc * World (Injector := Injector) *
           (ModuleRef ->
            GraphQLModule (Config := Config) (Request := Request)
              (Resolver := Resolver) (DocumentNode := DocumentNode)))
  : Prop :=
  fst (fst out) = builtResult /\
  next (snd (fst out)) = next w /\
  injectors (snd (fst out)) = injectors w /\
  (exists first rest mid,
      imports (modules this) = first :: rest /\
      calls (snd (fst out)) = calls w ++ mid ++ [(this, VRef first)]) /\
  (forall x, x <> builtResult -> ~ first_import x ->
             objects (snd (fst out)) !! x = objects w !! x) /\
  (forall x, ~ first_import x -> snd out x = modules x) /\
  (forall x k, has_key (own_props w x) k = true ->
               has_key (own_props (snd (fst out)) x) k = true) /\
  table_from (snd out) /\
  (builtResultIsModule = true ->
   forall x k, is_accessor k = true ->
               has_key (own_props (snd (fst out)) x) k
               = has_key (own_props w x) k).
End Reachability.

(** * Properties *)

(** ** Bind and the loops *)

Lemma bind_Returns {A B : Type} (a : A) (k : A -> outcome B) :
  (Returns a ≫= k) = k a.
Proof. reflexivity. Qed.

(** ** Property lists *)

Section JsObjectFacts.
Context {V : Type}.
Implicit Types (o : list (string * V)) (k : string) (v : V).

Lemma prop_get_set_eq o k v : prop_get (prop_set o k v) k = Some v.
Proof.
  induction o as [|[k' v'] o IH]; simpl.
  - by rewrite String.eqb_refl.
  - destruct (String.eqb k' k) eqn:E; simpl; rewrite E; [done | exact IH].
Qed.

Lemma prop_get_set_ne o k k' v :
  k <> k' -> prop_get (prop_set o k v) k' = prop_get o k'.
Proof.
  intros Hne. induction o as [|[k0 v0] o IH]; simpl.
  - destruct (String.eqb k k') eqn:E; [|done].
    apply String.eqb_eq in E. contradiction.
  - destruct (String.eqb k0 k) eqn:E; simpl.
    + apply String.eqb_eq in E. subst k0.
      destruct (String.eqb k k') eqn:E'; [|done].
      apply String.eqb_eq in E'. contradiction.
    + by rewrite IH.
Qed.

Lemma has_key_In o k : has_key o k = true <-> In k (keys o).
Proof.
  unfold has_key, keys. induction o as [|[k' v'] o IH]; simpl.
  - split; [discriminate | tauto].
  - destruct (String.eqb k' k) eqn:E.
    + apply String.eqb_eq in E. tauto.
    + apply String.eqb_neq in E. rewrite IH. tauto.
Qed.

Lemma has_key_false o k : has_key o k = false <-> ~ In k (keys o).
Proof.
  rewrite <- has_key_In. destruct (has_key o k); split; congruence.
Qed.

Lemma prop_get_In o k v : prop_get o k = Some v -> In (k, v) o.
Proof.
  induction o as [|[k' v'] o IH]; simpl; [discriminate|].
  destruct (String.eqb k' k) eqn:E.
  - apply String.eqb_eq in E. intros [= ->]. left. by subst.
  - intros H. right. by apply IH.
Qed.


Lemma keys_prop_set o k v :
  keys (prop_set o k v) = if has_key o k then keys o else keys o ++ [k].
Proof.
  unfold has_key, keys. induction o as [|[k' v'] o IH]; simpl; [done|].
  destruct (String.eqb k' k) eqn:E; simpl; [done|].
  rewrite IH. by destruct (prop_get o k).
Qed.

Lemma NoDup_keys_prop_set o k v :
  NoDup (keys o) -> NoDup (keys (prop_set o k v)).
Proof.
  intros Hnd. rewrite keys_prop_set.
  destruct (has_key o k) eqn:E; [done|].
  apply has_key_false in E.
  apply NoDup_app. split; [done|]. split.
  - intros x Hx Hx'. apply list_elem_of_In in Hx.
    apply list_elem_of_In in Hx'. destruct Hx' as [->|[]]. contradiction.
  - apply NoDup_singleton.
Qed.

Lemma has_key_prop_set o k k' v :
  has_key o k' = true -> has_key (prop_set o k v) k' = true.
Proof.
  rewrite !has_key_In, keys_prop_set.
  destruct (has_key o k); [done|]. intros H. apply in_or_app. by left.
Qed.

End JsObjectFacts.

(** ** Paths *)

Lemma split_nonempty s : split dot s <> [].
Proof.
  destruct s as [|c s]; simpl; [done|].
  destruct (Ascii.eqb c dot); [done|]. by destruct (split dot s).
Qed.

Lemma split_no_dot s : no_dot s = true -> split dot s = [s].
Proof.
  induction s as [|c s IH]; simpl; [done|].
  intros H. apply andb_true_iff in H as [Hc Hs].
  apply negb_true_iff in Hc. rewrite Hc, (IH Hs). done.
Qed.

Lemma split_app_dot (a s : string) :
  no_dot a = true -> split dot (a +:+ "." +:+ s) = a :: split dot s.
Proof.
  induction a as [|c a IH]; simpl; [done|].
  intros H. apply andb_true_iff in H as [Hc Ha].
  apply negb_true_iff in Hc. rewrite Hc. simpl in IH. by rewrite (IH Ha).
Qed.

Lemma split_path (typeName fieldName : string) :
  no_dot typeName = true -> no_dot fieldName = true ->
  split dot (typeName +:+ "." +:+ fieldName) = [typeName; fieldName].
Proof.
  intros Ht Hf. by rewrite split_app_dot, split_no_dot.
Qed.

Lemma split_single s b : split dot s = [b] -> s = b /\ no_dot b = true.
Proof.
  revert b. induction s as [|c s IH]; simpl; intros b.
  - by intros [= <-].
  - destruct (Ascii.eqb c dot) eqn:E.
    + intros [= <- H]. by destruct (split_nonempty s).
    + destruct (split dot s) as [|seg segs] eqn:Es;
        [by destruct (split_nonempty s)|].
      intros [= <- ->]. destruct (IH seg eq_refl) as [-> Hseg].
      simpl. rewrite E, Hseg. done.
Qed.

Lemma split_two s a b :
  split dot s = [a; b] ->
  s = a +:+ "." +:+ b /\ no_dot a = true /\ no_dot b = true.
Proof.
  revert a. induction s as [|c s IH]; simpl; intros a; [done|].
  destruct (Ascii.eqb c dot) eqn:E.
  - intros [= <- H]. apply split_single in H as [-> Hb].
    apply Ascii.eqb_eq in E. subst c. done.
  - destruct (split dot s) as [|seg segs] eqn:Es; [done|].
    intros [= <- ->]. destruct (IH seg eq_refl) as (-> & Hseg & Hb).
    simpl. by rewrite E, Hseg.
Qed.

Lemma no_bracket_app a b :
  no_bracket (a +:+ b) = no_bracket a && no_bracket b.
Proof.
  induction a as [|c a IH]; simpl; [done|]. rewrite IH.
  by rewrite !andb_assoc.
Qed.

Lemma plain_no_dot s : plain s = true -> no_dot s = true.
Proof. unfold plain. intros H. by apply andb_true_iff in H as [? ?]. Qed.

(** The segments of a two-segment path without brackets are plain. *)
Lemma split_two_plain s a b :
  no_bracket s = true -> split dot s = [a; b] ->
  plain a = true /\ plain b = true.
Proof.
  intros Hs H. apply split_two in H as (-> & Ha & Hb).
  rewrite !no_bracket_app in Hs. simpl in Hs.
  apply andb_true_iff in Hs as [Hs1 Hs2].
  unfold plain. by rewrite Ha, Hb, Hs1, Hs2.
Qed.

Lemma path_inj (t t' f f' : string) :
  no_dot t = true -> no_dot f = true -> no_dot t' = true -> no_dot f' = true ->
  t +:+ "." +:+ f = t' +:+ "." +:+ f' -> t = t' /\ f = f'.
Proof.
  intros Ht Hf Ht' Hf' Heq.
  pose proof (split_path t f Ht Hf) as H1.
  rewrite Heq, (split_path t' f' Ht' Hf') in H1. by injection H1.
Qed.

Lemma path_field_inj (t f f' : string) :
  t +:+ "." +:+ f = t +:+ "." +:+ f' -> f = f'.
Proof.
  induction t as [|c t IH]; simpl; intros [= H]; [done | by apply IH].
Qed.

(** ** The resolver composer *)

Section CompositionFacts.
Context {Resolver : Type}.
Implicit Types (r : IResolvers Resolver) (path : string)
  (fns : ComposeFns Resolver) (M : IResolversComposerMapping Resolver).

(** The reduction of [chainFunctions] nests the calls from the left. *)
Lemma chain_fold (cs : list (Composer Resolver))
    (a thunk : JsFunction (Resolver := Resolver)) args :
  fold_left (fun a b => fun args => a [b args])
    (map call1 cs ++ [thunk]) a args
  = a [fold_right (fun c acc => c acc) (thunk args) cs].
Proof.
  revert a. induction cs as [|c cs IH]; intros a; simpl; [done|].
  by rewrite IH.
Qed.

Lemma chainFunctions_thunk (cs : list (Composer Resolver))
    (thunk : JsFunction (Resolver := Resolver)) :
  exists fn, chainFunctions (map call1 cs ++ [thunk]) = Returns fn /\
             fn [] = fold_right (fun c acc => c acc) (thunk []) cs.
Proof.
  destruct cs as [|c cs]; simpl.
  - by eexists.
  - destruct (map call1 cs ++ [thunk]) as [|b rest] eqn:E.
    + by destruct cs.
    + eexists. split; [done|]. rewrite <- E. by rewrite chain_fold.
Qed.

Lemma composeField_eq fns r path :
  composeField fns r path
  = Returns (set r path (composed fns (get r path))).
Proof.
  unfold composeField, composed.
  destruct (chainFunctions_thunk (asArray fns) (fun _ => get r path))
    as (fn & Hc & Hfn).
  unfold JsFunction in *. rewrite Hc. simpl. by rewrite Hfn.
Qed.

Lemma foldM_composeField fns paths r :
  foldM (composeField fns) paths r = Returns (wrapAll fns paths r).
Proof.
  revert r. induction paths as [|p paths IH]; intros r; simpl; [done|].
  rewrite composeField_eq. simpl. apply IH.
Qed.

(** *** [get] and [set] on a field *)

Lemma get_lookup2 r t f v :
  no_dot t = true -> no_dot f = true ->
  lookup2 r t f = Some v -> get r (t +:+ "." +:+ f) = v.
Proof.
  intros Ht Hf. unfold get, lookup2. rewrite (split_path t f Ht Hf).
  destruct (prop_get r t); [|done]. by intros ->.
Qed.

Lemma lookup2_set_eq r t f v :
  no_dot t = true -> no_dot f = true ->
  lookup2 (set r (t +:+ "." +:+ f) v) t f = Some v.
Proof.
  intros Ht Hf. unfold set, lookup2. rewrite (split_path t f Ht Hf).
  by rewrite !prop_get_set_eq.
Qed.

Lemma lookup2_set_ne r path t f v :
  path <> t +:+ "." +:+ f ->
  lookup2 (set r path v) t f = lookup2 r t f.
Proof.
  intros Hne. unfold set.
  destruct (split dot path) as [|t1 [|f1 [|? ?]]] eqn:E; try done.
  apply split_two in E as (-> & Ht1 & Hf1). unfold lookup2.
  destruct (String.eqb t1 t) eqn:Et.
  - apply String.eqb_eq in Et. subst t1. rewrite prop_get_set_eq.
    assert (f1 <> f) by congruence.
    rewrite prop_get_set_ne by done. by destruct (prop_get r t).
  - apply String.eqb_neq in Et. by rewrite prop_get_set_ne.
Qed.

Lemma has_key_set r path v t :
  has_key r t = true -> has_key (set r path v) t = true.
Proof.
  intros H. unfold set.
  destruct (split dot path) as [|t1 [|f1 [|? ?]]]; try done.
  by apply has_key_prop_set.
Qed.

Lemma fields_unique_set r path v :
  fields_unique r -> fields_unique (set r path v).
Proof.
  intros Hu. unfold set.
  destruct (split dot path) as [|t1 [|f1 [|? ?]]]; try done.
  intros t fields. destruct (String.eqb t1 t) eqn:Et.
  - apply String.eqb_eq in Et. subst t1. rewrite prop_get_set_eq.
    intros [= <-]. apply NoDup_keys_prop_set.
    destruct (prop_get r t) eqn:E; [by eapply Hu | apply NoDup_nil_2].
  - apply String.eqb_neq in Et. rewrite prop_get_set_ne by done. apply Hu.
Qed.

(** *** [forEach] over the relevant fields *)

Lemma wrapAll_has_key fns paths r t :
  has_key r t = true -> has_key (wrapAll fns paths r) t = true.
Proof.
  revert r. induction paths as [|p paths IH]; intros r H; simpl; [done|].
  apply IH. by apply has_key_set.
Qed.

Lemma wrapAll_fields_unique fns paths r :
  fields_unique r -> fields_unique (wrapAll fns paths r).
Proof.
  revert r. induction paths as [|p paths IH]; intros r H; simpl; [done|].
  apply IH. by apply fields_unique_set.
Qed.

Lemma wrapAll_other fns paths r t f :
  ~ In (t +:+ "." +:+ f) paths ->
  lookup2 (wrapAll fns paths r) t f = lookup2 r t f.
Proof.
  revert r. induction paths as [|p paths IH]; intros r Hnin; simpl; [done|].
  rewrite IH by (intros ?; apply Hnin; by right).
  apply lookup2_set_ne. intros ->. apply Hnin. by left.
Qed.

Lemma wrapAll_target fns paths r t f v :
  no_dot t = true -> no_dot f = true ->
  NoDup paths -> In (t +:+ "." +:+ f) paths ->
  lookup2 r t f = Some v ->
  lookup2 (wrapAll fns paths r) t f = Some (composed fns v).
Proof.
  intros Ht Hf. revert r.
  induction paths as [|p paths IH]; intros r Hnd Hin Hv; simpl; [done|].
  apply NoDup_cons in Hnd as [Hp Hnd].
  destruct (String.eqb p (t +:+ "." +:+ f)) eqn:E.
  - apply String.eqb_eq in E. subst p.
    rewrite wrapAll_other by (by rewrite <- list_elem_of_In).
    rewrite (get_lookup2 r t f v Ht Hf Hv). by apply lookup2_set_eq.
  - apply String.eqb_neq in E. destruct Hin as [->|Hin]; [done|].
    apply IH; try done. by rewrite lookup2_set_ne.
Qed.

(** *** [resolveRelevantMappings] *)

Lemma resolveRelevantMappings_explicit r path t f M :
  split dot path = [t; f] -> f <> "*" ->
  resolveRelevantMappings r path M = Returns [path].
Proof.
  intros E Hf. unfold resolveRelevantMappings. rewrite E.
  destruct (String.eqb f "*") eqn:Ef; [|done].
  by apply String.eqb_eq in Ef.
Qed.

Lemma resolveRelevantMappings_wildcard r t fields M :
  no_dot t = true -> prop_get r t = Some fields ->
  resolveRelevantMappings r (t +:+ ".*") M
  = Returns (map (fun field => t +:+ "." +:+ field)
               (filter (fun field =>
                          has_key M (t +:+ "." +:+ field) = false)
                  (keys fields))).
Proof.
  intros Ht Hr. unfold resolveRelevantMappings.
  change (t +:+ ".*") with (t +:+ "." +:+ "*").
  rewrite (split_path t "*" Ht eq_refl). simpl. rewrite Hr. f_equal.
  induction (keys fields) as [|k ks IH]; [done|].
  rewrite filter_cons. simpl. rewrite filter_cons.
  destruct (decide (has_key M (t +:+ "." +:+ k) = false)); simpl;
    by rewrite IH.
Qed.

Lemma resolveRelevantMappings_other r path M :
  length (split dot path) <> 2 ->
  resolveRelevantMappings r path M = Returns [].
Proof.
  intros H. unfold resolveRelevantMappings.
  by destruct (split dot path) as [|t1 [|f1 [|? ?]]].
Qed.

(** *** One mapping entry *)

Lemma has_key_prop_get r t :
  has_key r t = true -> exists fields, prop_get r t = Some fields.
Proof. unfold has_key. destruct (prop_get r t); [eauto | done]. Qed.

Lemma wildcard_path_ne (t t1 f : string) :
  no_dot t = true -> no_dot f = true -> no_dot t1 = true -> f <> "*" ->
  t1 +:+ "." +:+ "*" <> t +:+ "." +:+ f.
Proof.
  intros Ht Hf Ht1 Hne Heq.
  apply path_inj in Heq as [_ <-]; done.
Qed.

Lemma expansion_NoDup (t : string) (ks : list string) (P : string -> Prop)
    `{!forall x, Decision (P x)} :
  NoDup ks -> NoDup (map (fun field => t +:+ "." +:+ field) (filter P ks)).
Proof.
  intros Hnd.
  assert (Hinj : Inj (=) (=) (fun field : string => t +:+ "." +:+ field))
    by (intros x y; apply path_field_inj).
  by apply (NoDup_fmap_2 _), NoDup_filter.
Qed.

Lemma In_expansion (t f : string) (ks : list string) (P : string -> Prop)
    `{!forall x, Decision (P x)} :
  In (t +:+ "." +:+ f)
     (map (fun field => t +:+ "." +:+ field) (filter P ks))
  <-> In f ks /\ P f.
Proof.
  rewrite in_map_iff. split.
  - intros (g & Heq & Hg). apply path_field_inj in Heq. subst g.
    apply list_elem_of_In, list_elem_of_filter in Hg as [? ?].
    by rewrite <- list_elem_of_In.
  - intros [Hin HP]. exists f. split; [done|].
    apply list_elem_of_In, list_elem_of_filter.
    by rewrite list_elem_of_In.
Qed.

Lemma composeEntry_effect M r path fns :
  fields_unique r ->
  (forall t, split dot path = [t; "*"] -> has_key r t = true) ->
  exists r1,
    composeEntry M r (path, fns) = Returns r1 /\
    fields_unique r1 /\
    (forall t, has_key r t = true -> has_key r1 t = true) /\
    (forall t f v,
        no_dot t = true -> no_dot f = true -> f <> "*" ->
        lookup2 r t f = Some v ->
        lookup2 r1 t f
        = Some (if fires M t f path then composed fns v else v)).
Proof.
  intros Hu Hw. unfold composeEntry.
  destruct (Nat.eq_dec (length (split dot path)) 2) as [Hlen|Hlen].
  - destruct (split dot path) as [|t1 [|f1 [|? ?]]] eqn:E; try done.
    clear Hlen. pose proof (split_two _ _ _ E) as (Hpath & Ht1 & Hf1).
    destruct (String.eqb f1 "*") eqn:Ef.
    + apply String.eqb_eq in Ef. subst f1.
      destruct (has_key_prop_get r t1 (Hw t1 eq_refl)) as [fields Hfields].
      subst path.
      change (t1 +:+ "." +:+ "*") with (t1 +:+ ".*").
      rewrite (resolveRelevantMappings_wildcard r t1 fields M Ht1 Hfields).
      rewrite bind_Returns, foldM_composeField. eexists. split; [done|].
      split; [by apply wrapAll_fields_unique|].
      split; [intros t; apply wrapAll_has_key|].
      intros t f v Ht Hf Hne Hv. unfold fires.
      change (t1 +:+ ".*") with (t1 +:+ "." +:+ "*").
      destruct (String.eqb (t1 +:+ "." +:+ "*") (t +:+ "." +:+ f)) eqn:E1.
      { apply String.eqb_eq in E1. by apply wildcard_path_ne in E1. }
      simpl.
      destruct (String.eqb (t1 +:+ "." +:+ "*") (t +:+ ".*")) eqn:E2.
      * apply String.eqb_eq in E2.
        change (t +:+ ".*") with (t +:+ "." +:+ "*") in E2.
        apply path_inj in E2 as [-> _]; try done.
        assert (Hin : In f (keys fields)).
        { unfold lookup2 in Hv. rewrite Hfields in Hv.
          apply prop_get_In in Hv. apply (in_map fst) in Hv. exact Hv. }
        destruct (has_key M (t +:+ "." +:+ f)) eqn:Hk; simpl.
        -- rewrite wrapAll_other; [done|].
           rewrite In_expansion. intros [_ ?]. congruence.
        -- apply wrapAll_target; try done.
           ++ apply expansion_NoDup. by eapply Hu.
           ++ by rewrite In_expansion.
      * apply String.eqb_neq in E2. simpl.
        rewrite wrapAll_other; [done|].
        rewrite in_map_iff. intros (g & Heq & _). apply E2.
        pose proof (split_path t f Ht Hf) as Hs.
        rewrite <- Heq, (split_app_dot t1 g Ht1) in Hs.
        by injection Hs as -> _.
    + apply String.eqb_neq in Ef.
      rewrite (resolveRelevantMappings_explicit r path t1 f1 M E Ef).
      rewrite bind_Returns, foldM_composeField. eexists. split; [done|].
      split; [by apply wrapAll_fields_unique|].
      split; [intros t; apply wrapAll_has_key|].
      intros t f v Ht Hf Hne Hv. unfold fires.
      assert (String.eqb path (t +:+ ".*") = false) as ->.
      { apply String.eqb_neq. intros Heq.
        change (t +:+ ".*") with (t +:+ "." +:+ "*") in Heq.
        rewrite Hpath in Heq. apply path_inj in Heq as [_ ?]; done. }
      simpl. rewrite orb_false_r.
      destruct (String.eqb path (t +:+ "." +:+ f)) eqn:E1.
      * apply String.eqb_eq in E1. rewrite E1.
        rewrite (get_lookup2 r t f v Ht Hf Hv). by apply lookup2_set_eq.
      * apply String.eqb_neq in E1. by rewrite lookup2_set_ne.
  - rewrite (resolveRelevantMappings_other r path M Hlen). simpl.
    eexists. split; [done|]. split; [done|]. split; [done|].
    intros t f v Ht Hf Hne Hv. rewrite Hv. f_equal.
    assert (Hfires : fires M t f path = false); [|by rewrite Hfires].
    unfold fires. apply orb_false_iff. split.
    + apply String.eqb_neq. intros ->. apply Hlen.
      by rewrite split_path.
    + apply andb_false_iff. left. apply String.eqb_neq. intros ->.
      apply Hlen. change (t +:+ ".*") with (t +:+ "." +:+ "*").
      by rewrite split_path.
Qed.

(** *** The whole mapping *)

Lemma wildcards_present_cons r path fns M :
  wildcards_present r ((path, fns) :: M) ->
  (forall t, split dot path = [t; "*"] -> has_key r t = true) /\
  wildcards_present r M.
Proof.
  intros H. split.
  - intros t Ht. apply (H path t); [by left | done].
  - intros p t Hin Ht. apply (H p t); [by right | done].
Qed.

Lemma foldM_composeEntry_effect M entries r :
  fields_unique r -> wildcards_present r entries ->
  exists r',
    foldM (composeEntry M) entries r = Returns r' /\
    fields_unique r' /\
    (forall t, has_key r t = true -> has_key r' t = true) /\
    (forall t f v,
        no_dot t = true -> no_dot f = true -> f <> "*" ->
        lookup2 r t f = Some v ->
        lookup2 r' t f = Some (composition_of M t f entries v)).
Proof.
  revert r. induction entries as [|[path fns] entries IH]; intros r Hu Hw.
  - exists r. simpl. done.
  - apply wildcards_present_cons in Hw as [Hw1 Hw].
    destruct (composeEntry_effect M r path fns Hu Hw1)
      as (r1 & Hr1 & Hu1 & Hk1 & He1).
    destruct (IH r1 Hu1) as (r' & Hr' & Hu' & Hk' & He').
    { intros p t Hin Ht. apply Hk1. by apply (Hw p t). }
    exists r'. cbn [foldM]. rewrite Hr1, bind_Returns. split; [done|].
    split; [done|]. split; [by auto|].
    intros t f v Ht Hf Hne Hv. apply He'; try done. by apply He1.
Qed.

Lemma composition_of_idle M t f entries v :
  (forall p, In p (keys entries) -> fires M t f p = false) ->
  composition_of M t f entries v = v.
Proof.
  revert v. induction entries as [|[p fns] entries IH]; intros v H;
    simpl; [done|].
  rewrite (H p) by (by left). apply IH. intros q Hq. apply H. by right.
Qed.

Lemma composition_of_once M t f entries path fns v :
  NoDup (keys entries) -> In (path, fns) entries ->
  fires M t f path = true ->
  (forall p, In p (keys entries) -> p <> path -> fires M t f p = false) ->
  composition_of M t f entries v = composed fns v.
Proof.
  revert v. induction entries as [|[p fns0] entries IH];
    intros v Hnd Hin Hfire Hothers; simpl; [done|].
  simpl in Hnd. apply NoDup_cons in Hnd as [Hp Hnd].
  rewrite list_elem_of_In in Hp.
  destruct (String.eqb p path) eqn:E.
  - apply String.eqb_eq in E. subst p. rewrite Hfire.
    destruct Hin as [[= ->]|Hin].
    + apply composition_of_idle. intros q Hq. apply Hothers; [by right|].
      intros ->. contradiction.
    + exfalso. apply Hp. apply (in_map fst) in Hin. exact Hin.
  - apply String.eqb_neq in E.
    rewrite (Hothers p) by (by left || done).
    destruct Hin as [[= -> _]|Hin]; [done|].
    apply IH; try done. intros q Hq. apply Hothers. by right.
Qed.
End CompositionFacts.

(** ** Composition of the whole mapping *)

Section ComposeResolversFacts.
Context {Resolver : Type}.
Implicit Types (r : IResolvers Resolver) (path : string)
  (fns : ComposeFns Resolver) (M : IResolversComposerMapping Resolver).

Lemma wf_resolvers_fields_unique r : wf_resolvers r -> fields_unique r.
Proof. intros (_ & _ & H) t fields Hget. by destruct (H t fields Hget). Qed.

Lemma foldM_app {A S : Type} (f : S -> A -> outcome S) xs ys (s : S) :
  foldM f (xs ++ ys) s = (foldM f xs s ≫= foldM f ys).
Proof.
  revert s. induction xs as [|x xs IH]; intros s; simpl; [done|].
  destruct (f s x); simpl; [apply IH | done..].
Qed.

(** A field with a mapping entry of its own ends up wrapped by exactly
    that entry's composers. *)
Lemma composeResolvers_explicit r M t f fns v :
  wf_resolvers r -> wf_mapping M -> wildcards_present r M ->
  plain t = true -> plain f = true -> f <> "*" ->
  lookup2 r t f = Some v ->
  prop_get M (t +:+ "." +:+ f) = Some fns ->
  exists r', composeResolvers r M = Returns r' /\
             lookup2 r' t f = Some (composed fns v).
Proof.
  intros Hr [HM _] Hw Ht Hf Hne Hv Hfns.
  apply plain_no_dot in Ht, Hf.
  destruct (foldM_composeEntry_effect M M r
              (wf_resolvers_fields_unique r Hr) Hw)
    as (r' & Hr' & _ & _ & He).
  exists r'. split; [exact Hr'|].
  rewrite (He t f v Ht Hf Hne Hv). f_equal.
  apply (composition_of_once M t f M (t +:+ "." +:+ f)); try done.
  - by apply prop_get_In.
  - unfold fires. by rewrite String.eqb_refl.
  - intros p _ Hp. unfold fires.
    apply String.eqb_neq in Hp. rewrite Hp. simpl.
    unfold has_key. rewrite Hfns. simpl. apply andb_false_r.
Qed.




End ComposeResolversFacts.

(** ** Claims on the resolver composer *)

(** C5. When the mapping lists the composers [f; g] for the path
    [Type.field] of a resolver map that holds [original] there,
    [composeResolvers] returns, and the resolver it installed at that path
    is [f (g original)]: [g], listed last, is applied to the original
    resolver and [f], listed first, wraps the result and so runs first. The
    same holds for a list of any length, which is nested from the right. *)
Theorem composeResolvers_chain_order {Resolver : Type}
    (resolvers : IResolvers Resolver)
    (mapping : IResolversComposerMapping Resolver)
    (typeName fieldName : string) (f g : Composer Resolver)
    (fns : list (Composer Resolver)) (original : FieldValue Resolver) :
  wf_resolvers resolvers -> wf_mapping mapping ->
  wildcards_present resolvers mapping ->
  plain typeName = true -> plain fieldName = true -> fieldName <> "*" ->
  lookup2 resolvers typeName fieldName = Some original ->
  (prop_get mapping (typeName +:+ "." +:+ fieldName) = Some (Multiple [f; g]) ->
   exists composedResolvers,
     composeResolvers resolvers mapping = Returns composedResolvers /\
     lookup2 composedResolvers typeName fieldName = Some (f (g original)) /\
     get composedResolvers (typeName +:+ "." +:+ fieldName) = f (g original))
  /\
  (prop_get mapping (typeName +:+ "." +:+ fieldName) = Some (Multiple fns) ->
   exists composedResolvers,
     composeResolvers resolvers mapping = Returns composedResolvers /\
     lookup2 composedResolvers typeName fieldName
     = Some (fold_right (fun c next => c next) original fns)).
Proof.
  intros Hr HM Hw Ht Hf Hne Hv. split; intros Hfns.
  - destruct (composeResolvers_explicit resolvers mapping typeName fieldName
                _ original Hr HM Hw Ht Hf Hne Hv Hfns) as (r' & Hr' & Hl).
    exists r'. split; [done|]. split; [exact Hl|].
    apply get_lookup2; [by apply plain_no_dot..|exact Hl].
  - exact (composeResolvers_explicit resolvers mapping typeName fieldName
             _ original Hr HM Hw Ht Hf Hne Hv Hfns).
Qed.

Lemma sample_resolvers_wf : wf_resolvers sample_resolvers.
Proof.
  split; [|split].
  - refine (bool_decide_unpack _ _); by vm_compute.
  - by repeat constructor.
  - intros t fields. unfold sample_resolvers. cbn [prop_get].
    destruct (String.eqb "Query" t);
      [|destruct (String.eqb "User" t); [|done]];
      intros [= <-]; (split; [refine (bool_decide_unpack _ _); by vm_compute
                             | by repeat constructor]).
Qed.

Lemma sample_mapping_wf : wf_mapping sample_mapping.
Proof.
  split.
  - refine (bool_decide_unpack _ _); by vm_compute.
  - by repeat constructor.
Qed.

Lemma sample_wildcards_present :
  wildcards_present sample_resolvers sample_mapping.
Proof.
  intros path t Hin Hsplit. simpl in Hin.
  destruct Hin as [<-|[<-|[<-|[]]]]; vm_compute in Hsplit;
    by injection Hsplit as <-.
Qed.

Lemma composeResolvers_chain_order_witness :
  exists composedResolvers,
    composeResolvers sample_resolvers sample_mapping
    = Returns composedResolvers /\
    lookup2 composedResolvers "Query" "me" = Some (Some "auth(audit(me))") /\
    get composedResolvers "Query.me" = Some "auth(audit(me))".
Proof.
  exact (proj1 (composeResolvers_chain_order sample_resolvers sample_mapping
                  "Query" "me" (wrapper "auth") (wrapper "audit") []
                  (Some "me") sample_resolvers_wf sample_mapping_wf
                  sample_wildcards_present eq_refl eq_refl
                  ltac:(discriminate) eq_refl) eq_refl).
Defined.



(** C9, on the code. A wildcard entry for a type that the resolver map
    lacks makes [composeResolvers] raise a [TypeError]; an entry for a
    field that the map lacks adds that field, holding the composer applied
    to [undefined]. Neither is a no-op. *)
Theorem composeResolvers_absent_target :
  composeResolvers sample_resolvers [("Mutation.*", Single (wrapper "log"))]
  = Throws (TypeError "Cannot convert undefined or null to object")
  /\
  composeResolvers sample_resolvers [("Query.posts", Single (wrapper "log"))]
  = Returns
      [("Query", [("me", Some "me"); ("users", Some "users");
                  ("posts", Some "log(undefined)")]);
       ("User", [("id", Some "id")])]
  /\
  composeResolvers sample_resolvers
    [("Mutation.*", Single (wrapper "log"));
     ("Query.me", Single (wrapper "auth"))]
  = Throws (TypeError "Cannot convert undefined or null to object").
Proof. repeat split; reflexivity. Qed.

(** C10. A mapping key that does not split into exactly two segments at
    the dots matches no field: [resolveRelevantMappings] returns the empty
    list, the entry's step of [composeResolvers] returns the resolver map
    as it was, whatever the other entries are, and the composition goes on
    as if the entry were not listed among those to apply. *)
Theorem malformed_path_skipped {Resolver : Type}
    (path : string) (fns : ComposeFns Resolver) :
  length (split dot path) <> 2 ->
  forall (resolvers : IResolvers Resolver)
         (allMappings before after : IResolversComposerMapping Resolver),
    resolveRelevantMappings resolvers path allMappings = Returns [] /\
    composeEntry allMappings resolvers (path, fns) = Returns resolvers /\
    composeResolvers resolvers [(path, fns)] = Returns resolvers /\
    foldM (composeEntry allMappings) (before ++ (path, fns) :: after) resolvers
    = foldM (composeEntry allMappings) (before ++ after) resolvers.
Proof.
  intros Hlen r M before after.
  assert (Hstep : forall M' r', composeEntry M' r' (path, fns) = Returns r').
  { intros M' r'. unfold composeEntry.
    by rewrite (resolveRelevantMappings_other r' path M' Hlen). }
  split; [by apply resolveRelevantMappings_other|].
  split; [apply Hstep|]. split.
  - unfold composeResolvers. cbn [foldM]. by rewrite Hstep.
  - rewrite !foldM_app. destruct (foldM (composeEntry M) before r); try done.
    rewrite !bind_Returns. cbn [foldM]. by rewrite Hstep.
Qed.

Lemma malformed_path_skipped_witness :
  resolveRelevantMappings sample_resolvers "Query" sample_mapping = Returns []
  /\
  composeEntry sample_mapping sample_resolvers
    ("Query", Single (wrapper "stray")) = Returns sample_resolvers /\
  composeResolvers sample_resolvers [("Query", Single (wrapper "stray"))]
  = Returns sample_resolvers /\
  foldM (composeEntry sample_mapping)
    ([("Query.*", Single (wrapper "log"))]
       ++ ("Query", Single (wrapper "stray"))
       :: [("Type.field.sub", Single (wrapper "deep"))])
    sample_resolvers
  = foldM (composeEntry sample_mapping)
      ([("Query.*", Single (wrapper "log"))]
         ++ [("Type.field.sub", Single (wrapper "deep"))])
      sample_resolvers.
Proof.
  exact (malformed_path_skipped "Query" (Single (wrapper "stray"))
           ltac:(vm_compute; lia) sample_resolvers sample_mapping
           [("Query.*", Single (wrapper "log"))]
           [("Type.field.sub", Single (wrapper "deep"))]).
Defined.

(** ** The loops over the imports *)

Section LoopFacts.
Context {A B : Type}.
Implicit Types (f g : A -> outcome B).

Lemma mapM_ext f g xs :
  (forall x, In x xs -> f x = g x) -> mapM f xs = mapM g xs.
Proof.
  induction xs as [|x xs IH]; intros H; simpl; [done|].
  rewrite (H x) by (by left). rewrite IH; [done|].
  intros y Hy. apply H. by right.
Qed.

Lemma mapM_Returns f xs ys :
  mapM f xs = Returns ys <-> Forall2 (fun x y => f x = Returns y) xs ys.
Proof.
  revert ys. induction xs as [|x xs IH]; intros ys; simpl.
  - split; [intros [= <-]; constructor | by inversion 1].
  - split.
    + destruct (f x) as [y| | |] eqn:Ex; simpl; try done.
      destruct (mapM f xs) as [ys'| | |] eqn:Exs; simpl; try done.
      intros [= <-]. constructor; [done | by apply IH].
    + inversion 1 as [|? y ? ys' Hy Hys]; subst.
      rewrite Hy. simpl. apply IH in Hys. by rewrite Hys.
Qed.

Lemma mapM_no_Throws f xs e :
  (forall x e, In x xs -> f x <> Throws e) -> mapM f xs <> Throws e.
Proof.
  induction xs as [|x xs IH]; intros H; simpl; [done|].
  destruct (f x) as [y| | |] eqn:Ex; simpl; try done.
  - destruct (mapM f xs) as [ys| | |] eqn:Exs; simpl; try done.
    intros [= ->]. apply (IH (fun x e Hx => H x e (or_intror Hx))). done.
  - intros [= ->]. by apply (H x e); [left|].
Qed.

Lemma mapM_no_NotModelled f xs :
  (forall x, In x xs -> f x <> NotModelled) -> mapM f xs <> NotModelled.
Proof.
  induction xs as [|x xs IH]; intros H; simpl; [done|].
  destruct (f x) as [y| | |] eqn:Ex; simpl; try done.
  - destruct (mapM f xs) as [ys| | |] eqn:Exs; simpl; try done.
    intros _. apply IH; [|done]. intros x' Hx'. apply H. by right.
  - intros _. by apply (H x); [left|].
Qed.

Lemma mapM_OutOfFuel f xs x :
  (forall x e, In x xs -> f x <> Throws e) ->
  (forall x, In x xs -> f x <> NotModelled) ->
  In x xs -> f x = OutOfFuel -> mapM f xs = OutOfFuel.
Proof.
  induction xs as [|x0 xs IH]; intros H H' Hin Hx; simpl; [done|].
  destruct Hin as [->|Hin].
  - by rewrite Hx.
  - destruct (f x0) as [y| | |] eqn:Ex0; simpl; try done.
    + rewrite IH; try done.
      * intros y' e Hy'. apply H. by right.
      * intros y' Hy'. apply H'. by right.
    + by destruct (H x0 e); [left|].
    + by destruct (H' x0); [left|].
Qed.

Lemma mapM_total f xs :
  (forall x, In x xs -> exists y, f x = Returns y) ->
  exists ys, mapM f xs = Returns ys.
Proof.
  induction xs as [|x xs IH]; intros H; simpl; [by eexists|].
  destruct (H x) as [y Hy]; [by left|]. rewrite Hy. simpl.
  destruct IH as [ys Hys]; [intros x' Hx'; apply H; by right|].
  rewrite Hys. simpl. by eexists.
Qed.
End LoopFacts.

(** [reduce((acc, module) => [...f(module), ...acc], init)] puts the result
    of the last element first. *)
Lemma foldM_prepend {A B : Type} (f : A -> outcome (list B)) xs acc :
  foldM (fun acc x => ys ← f x; Returns (ys ++ acc)) xs acc
  = (yss ← mapM f xs; Returns (concat (reverse yss) ++ acc)).
Proof.
  revert acc. induction xs as [|x xs IH]; intros acc; simpl; [done|].
  destruct (f x) as [y| | |]; simpl; try done.
  rewrite IH. destruct (mapM f xs) as [ys| | |]; simpl; try done.
  rewrite reverse_cons, concat_app. simpl.
  by rewrite app_nil_r, <- app_assoc.
Qed.

(** ** The recursive getters *)

Section GetterFacts.
Context {Config Request Resolver DocumentNode : Type}.
Variable print : DocumentNode -> string.
Variable mergeGraphQLSchemas : list (TypeDefs DocumentNode) -> string.
Variable mergeResolvers :
  list (IResolvers Resolver) -> IResolvers Resolver.
Variable modules :
  ModuleRef ->
  GraphQLModule (Config := Config) (Request := Request)
    (Resolver := Resolver) (DocumentNode := DocumentNode).

Section Walk.
Context {A : Type}.
Variable combine : ModuleRef -> list A -> A.

Lemma walk_no_Throws fuel this e :
  walk modules combine fuel this <> Throws e.
Proof.
  revert this e.
  induction fuel as [|fuel IH]; intros this e; simpl; [done|].
  destruct (mapM (walk modules combine fuel) (imports (modules this)))
    as [xs| | |] eqn:E; simpl; try done.
  intros [= ->]. revert E. apply mapM_no_Throws. intros x e' _. apply IH.
Qed.

Lemma walk_no_NotModelled fuel this :
  walk modules combine fuel this <> NotModelled.
Proof.
  revert this.
  induction fuel as [|fuel IH]; intros this; simpl; [done|].
  destruct (mapM (walk modules combine fuel) (imports (modules this)))
    as [xs| | |] eqn:E; simpl; try done.
  intros _. revert E. apply mapM_no_NotModelled. intros x _. apply IH.
Qed.

Lemma walk_mono fuel fuel' this a :
  walk modules combine fuel this = Returns a -> fuel <= fuel' ->
  walk modules combine fuel' this = Returns a.
Proof.
  revert fuel' this a.
  induction fuel as [|fuel IH]; intros fuel' this a; simpl; [done|].
  destruct (mapM (walk modules combine fuel) (imports (modules this)))
    as [xs| | |] eqn:E; simpl; try done.
  intros [= <-] Hle. destruct fuel' as [|fuel']; [lia|]. simpl.
  apply mapM_Returns in E.
  assert (E' : mapM (walk modules combine fuel') (imports (modules this))
               = Returns xs).
  { apply mapM_Returns. eapply Forall2_impl; [exact E|].
    intros x y Hxy. apply IH; [done | lia]. }
  by rewrite E'.
Qed.

Lemma walk_total rank fuel this :
  acyclic modules rank -> rank this < fuel ->
  exists a, walk modules combine fuel this = Returns a.
Proof.
  intros Hrank. revert this.
  induction fuel as [|fuel IH]; intros this Hlt; [lia|]. simpl.
  destruct (mapM_total (walk modules combine fuel) (imports (modules this)))
    as [xs Hxs].
  { intros x Hx. apply IH. specialize (Hrank this x Hx). lia. }
  rewrite Hxs. simpl. by eexists.
Qed.

(** With enough fuel the walk returns the combination of what the
    walks from the imports return, in import order. *)
Lemma walk_unfold rank fuel this :
  acyclic modules rank -> rank this < fuel ->
  exists imported,
    Forall2 (fun module a =>
               forall fuel', rank module < fuel' ->
                             walk modules combine fuel' module = Returns a)
      (imports (modules this)) imported /\
    walk modules combine fuel this = Returns (combine this imported).
Proof.
  intros Hrank Hlt. destruct fuel as [|fuel]; [lia|]. simpl.
  destruct (mapM_total (walk modules combine fuel) (imports (modules this)))
    as [xs Hxs].
  { intros x Hx. apply (walk_total rank); [done|].
    specialize (Hrank this x Hx). lia. }
  rewrite Hxs. simpl. exists xs. split; [|done].
  apply mapM_Returns in Hxs.
  apply Forall2_same_length_lookup. split; [by eapply Forall2_length|].
  intros i x y Hx Hy fuel' Hfuel'.
  pose proof (Forall2_lookup_lr _ _ _ _ _ _ Hxs Hx Hy) as Hxy.
  destruct (walk_total rank fuel' x Hrank Hfuel') as [a Ha].
  destruct (Nat.le_ge_cases fuel fuel') as [Hle|Hle].
  - by apply (walk_mono fuel).
  - rewrite Ha. f_equal.
    pose proof (walk_mono fuel' fuel x a Ha Hle) as Ha'. congruence.
Qed.

(** From a module that reaches a cycle, no amount of fuel suffices. *)
Lemma walk_cyclic inside fuel this :
  cyclic_from modules inside -> inside this ->
  walk modules combine fuel this = OutOfFuel.
Proof.
  intros Hcyc. revert this.
  induction fuel as [|fuel IH]; intros this Hin; simpl; [done|].
  destruct (Hcyc this Hin) as (module & Hmodule & Hinside).
  rewrite (mapM_OutOfFuel _ _ module); try done.
  - intros x e _. apply walk_no_Throws.
  - intros x _. apply walk_no_NotModelled.
  - by apply IH.
Qed.
End Walk.

Lemma providers_walk fuel this :
  providers modules fuel this
  = walk modules
      (fun this imported =>
         concat (reverse imported) ++ ownProviders (modules this))
      fuel this.
Proof.
  revert this. induction fuel as [|fuel IH]; intros this; simpl; [done|].
  rewrite foldM_prepend.
  rewrite (mapM_ext _ _ _ (fun x _ => IH x)).
  destruct (mapM _ (imports (modules this))); simpl; try done.
  by rewrite app_nil_r.
Qed.

Lemma typeDefs_walk fuel this :
  typeDefs print mergeGraphQLSchemas modules fuel this
  = walk modules
      (fun this imported =>
         mergeGraphQLSchemas
           (map (fun s => One (SDL s)) imported
            ++ [ownTypeDefs print mergeGraphQLSchemas (modules this)]))
      fuel this.
Proof.
  revert this. induction fuel as [|fuel IH]; intros this; simpl; [done|].
  by rewrite (mapM_ext _ _ _ (fun x _ => IH x)).
Qed.

Lemma resolvers_walk fuel this :
  resolvers mergeResolvers modules fuel this
  = walk modules
      (fun this imported =>
         mergeResolvers (imported ++ [ownResolvers (modules this)]))
      fuel this.
Proof.
  revert this. induction fuel as [|fuel IH]; intros this; simpl; [done|].
  by rewrite (mapM_ext _ _ _ (fun x _ => IH x)).
Qed.
End GetterFacts.

(** ** Claims on the module getters *)

Lemma app_modules_acyclic async : acyclic (app_modules async) app_rank.
Proof.
  intros this module.
  destruct this as [|[|[|[|[|this]]]]]; simpl; intros H;
    decompose [or] H; subst; simpl; lia || done.
Qed.

Lemma cyclic_modules_cyclic :
  cyclic_from cyclic_modules (fun m => m = 0 \/ m = 1).
Proof.
  intros this [->| ->]; simpl.
  - exists 1. split; [by left | by right].
  - exists 0. split; [by left | by left].
Qed.

(** C1, on the code. The [resolvers] getter never reads
    [resolversComposition]: Auth declares a composer for [Query.me], which
    [composeResolvers] would install on Auth's own map, and the getter
    returns the merged map with the bare resolver; a module's merged
    resolvers are the same with and without the option. *)
Theorem resolvers_getter_skips_composition :
  options_resolversComposition (_options (app_modules true 1))
  = Some (CompositionLiteral [("Query.me", Single (wrapper "auth"))])
  /\
  composeResolvers (ownResolvers (app_modules true 1))
    [("Query.me", Single (wrapper "auth"))]
  = Returns [("User", [("id", Some "id")]);
             ("Query", [("me", Some "auth(me)")])]
  /\
  resolvers sample_mergeResolvers (app_modules true) 2 1
  = Returns [("Query", [("users", Some "users"); ("me", Some "me")]);
             ("User", [("id", Some "id")])]
  /\
  forall (merge : list (IResolvers string) -> IResolvers string)
         (modules : ModuleRef -> SampleModule) fuel this,
    resolvers merge (fun m => withoutComposition (modules m)) fuel this
    = resolvers merge modules fuel this.
Proof.
  split; [reflexivity|]. split; [reflexivity|]. split; [reflexivity|].
  intros merge modules fuel. induction fuel as [|fuel IH]; intros this;
    simpl; [done|].
  by rewrite (mapM_ext _ _ _ (fun x _ => IH x)).
Qed.

(** C3 fails as stated: in App, which imports Auth and then Blog, the
    providers of Blog come before those of Auth. *)
Lemma providers_import_order_counterexample :
  exists psAuth psBlog,
    providers (app_modules true) 2 1 = Returns psAuth /\
    providers (app_modules true) 2 3 = Returns psBlog /\
    providers (app_modules true) 3 0
    <> Returns (psAuth ++ psBlog ++ ownProviders (app_modules true 0)).
Proof.
  eexists. eexists. split; [reflexivity|]. split; [reflexivity|].
  vm_compute. discriminate.
Qed.

(** C3, amended. In an import graph without cycles the [providers] getter
    returns, and its list is the flattened providers of the imported
    modules in reverse import order (the whole list of the last import
    first), followed by the module's own providers: the [ModuleConfig]
    provider bound to the module's configuration, then the declared ones,
    a function being applied to the configuration. *)
Theorem providers_reverse_import_order
    {Config Request Resolver DocumentNode : Type}
    (modules : ModuleRef ->
               GraphQLModule (Config := Config) (Request := Request)
                 (Resolver := Resolver) (DocumentNode := DocumentNode))
    (rank : ModuleRef -> nat) (fuel : nat) (this : ModuleRef) :
  acyclic modules rank -> rank this < fuel ->
  exists imported,
    Forall2 (fun module ps =>
               forall fuel', rank module < fuel' ->
                             providers modules fuel' module = Returns ps)
      (imports (modules this)) imported /\
    providers modules fuel this
    = Returns
        (concat (reverse imported)
         ++ ValueProvider
              (SymbolFor ("ModuleConfig." +:+
                          options_name (_options (modules this))))
              (_moduleConfig (modules this))
         :: match options_providers (_options (modules this)) with
            | Some (ProvidersFunction f) => f (_moduleConfig (modules this))
            | Some (ProvidersArray ps) => ps
            | None => []
            end).
Proof.
  intros Hrank Hlt.
  destruct (walk_unfold modules
              (fun this imported =>
                 concat (reverse imported) ++ ownProviders (modules this))
              rank fuel this Hrank Hlt) as (imported & Himp & Hthis).
  exists imported. split.
  - eapply Forall2_impl; [exact Himp|]. intros m ps H fuel' Hfuel'.
    rewrite providers_walk. by apply H.
  - rewrite providers_walk. exact Hthis.
Qed.

Lemma providers_reverse_import_order_witness :
  exists imported,
    Forall2 (fun module ps =>
               forall fuel', app_rank module < fuel' ->
                             providers (app_modules true) fuel' module
                             = Returns ps)
      [1; 3] imported /\
    providers (app_modules true) 3 0
    = Returns
        (concat (reverse imported)
         ++ [ValueProvider (SymbolFor "ModuleConfig.App") "app-config";
             ClassProvider "AppService"]).
Proof.
  exact (providers_reverse_import_order (app_modules true) app_rank 3 0
           (app_modules_acyclic true) ltac:(simpl; lia)).
Defined.

(** C4 fails as stated: with A importing B and B importing A, the
    getters raise no error at any depth of recursion. *)
Lemma cyclic_imports_counterexample :
  ~ (exists fuel e,
        providers cyclic_modules fuel 0 = Throws e \/
        typeDefs sample_print sample_mergeGraphQLSchemas cyclic_modules fuel 0
        = Throws e \/
        resolvers sample_mergeResolvers cyclic_modules fuel 0 = Throws e \/
        injector [] sample_provide sample_init cyclic_modules fuel 0
        = Throws e).
Proof.
  intros (fuel & e & H).
  assert (Hwalk : forall (A : Type) (combine : ModuleRef -> list A -> A),
             walk cyclic_modules combine fuel 0 = OutOfFuel).
  { intros A combine.
    apply (walk_cyclic cyclic_modules combine _ fuel 0 cyclic_modules_cyclic).
    by left. }
  unfold injector in H.
  rewrite providers_walk, typeDefs_walk, resolvers_walk, !Hwalk in H.
  by decompose [or] H.
Qed.

(** C4, amended. From a module whose imports lead into a cycle, the
    getters [providers], [typeDefs], [resolvers] and [injector] neither
    return nor raise: whatever depth of recursion is allowed, they use it
    up. The code has no cycle detection. *)
Theorem cyclic_imports_exhaust_fuel
    {Config Request Resolver DocumentNode Injector : Type}
    (print : DocumentNode -> string)
    (mergeGraphQLSchemas : list (TypeDefs DocumentNode) -> string)
    (mergeResolvers : list (IResolvers Resolver) -> IResolvers Resolver)
    (newInjector : Injector)
    (injector_provide injector_init :
       Injector -> Provider Config -> Injector)
    (modules : ModuleRef ->
               GraphQLModule (Config := Config) (Request := Request)
                 (Resolver := Resolver) (DocumentNode := DocumentNode))
    (inside : ModuleRef -> Prop) (this : ModuleRef) (fuel : nat) :
  cyclic_from modules inside -> inside this ->
  providers modules fuel this = OutOfFuel /\
  typeDefs print mergeGraphQLSchemas modules fuel this = OutOfFuel /\
  resolvers mergeResolvers modules fuel this = OutOfFuel /\
  injector newInjector injector_provide injector_init modules fuel this
  = OutOfFuel.
Proof.
  intros Hcyc Hin. unfold injector.
  rewrite providers_walk, typeDefs_walk, resolvers_walk.
  by rewrite !(walk_cyclic modules _ inside fuel this Hcyc Hin).
Qed.

Lemma cyclic_imports_exhaust_fuel_witness :
  providers cyclic_modules 1000 0 = OutOfFuel /\
  typeDefs sample_print sample_mergeGraphQLSchemas cyclic_modules 1000 0
  = OutOfFuel /\
  resolvers sample_mergeResolvers cyclic_modules 1000 0 = OutOfFuel /\
  injector [] sample_provide sample_init cyclic_modules 1000 0 = OutOfFuel.
Proof.
  exact (cyclic_imports_exhaust_fuel sample_print sample_mergeGraphQLSchemas
           sample_mergeResolvers [] sample_provide sample_init cyclic_modules
           (fun m => m = 0 \/ m = 1) 0 1000 cyclic_modules_cyclic
           (or_introl eq_refl)).
Defined.

(** C7, on the code. The [typeDefs] getter does not materialize every
    form of the own fragment into a single string. A list given as such is
    merged into one string and a document is printed, before the final
    merge; what a function of the configuration returns is passed to the
    final merge as the function returned it, be it a list or a document.
    Blog declares its fragment as a function that returns a list: the
    local [typeDefs] of its getter is that list, where User, which gives
    a list directly, has one merged string; and the final merge of Blog's
    getter receives User's string followed by the list. *)
Theorem typeDefs_function_not_normalised :
  (forall (Config Request Resolver DocumentNode : Type)
          (print : DocumentNode -> string)
          (mergeGraphQLSchemas : list (TypeDefs DocumentNode) -> string)
          (this : GraphQLModule (Config := Config) (Request := Request)
                    (Resolver := Resolver) (DocumentNode := DocumentNode))
          (f : Config -> TypeDefs DocumentNode),
      options_typeDefs (_options this) = Some (TypeDefsFunction f) ->
      ownTypeDefs print mergeGraphQLSchemas this = f (_moduleConfig this))
  /\
  (forall (Config Request Resolver DocumentNode : Type)
          (print : DocumentNode -> string)
          (mergeGraphQLSchemas : list (TypeDefs DocumentNode) -> string)
          (this : GraphQLModule (Config := Config) (Request := Request)
                    (Resolver := Resolver) (DocumentNode := DocumentNode)),
      (forall items,
          options_typeDefs (_options this)
          = Some (TypeDefsLiteral (Many items)) ->
          ownTypeDefs print mergeGraphQLSchemas this
          = One (SDL (mergeGraphQLSchemas (map One items)))) /\
      (forall document,
          options_typeDefs (_options this)
          = Some (TypeDefsLiteral (One (AST document))) ->
          ownTypeDefs print mergeGraphQLSchemas this
          = One (SDL (print document))))
  /\
  options_typeDefs (_options (app_modules true 3))
  = Some (TypeDefsFunction (fun config => Many [SDL "type Post"; SDL config]))
  /\
  ownTypeDefs sample_print sample_mergeGraphQLSchemas (app_modules true 3)
  = Many [SDL "type Post"; SDL "type Comment"]
  /\
  options_typeDefs (_options (app_modules true 2))
  = Some (TypeDefsLiteral (Many [SDL "type User"; SDL "type Query"]))
  /\
  ownTypeDefs sample_print sample_mergeGraphQLSchemas (app_modules true 2)
  = One (SDL "type User type Query")
  /\
  typeDefs sample_print sample_mergeGraphQLSchemas (app_modules true) 2 3
  = Returns
      (sample_mergeGraphQLSchemas
         [One (SDL "type User type Query");
          Many [SDL "type Post"; SDL "type Comment"]]).
Proof.
  split; [|split; [|repeat split]].
  - intros Config Request Resolver DocumentNode print mergeGraphQLSchemas
      this f H.
    unfold ownTypeDefs. by rewrite H.
  - intros Config Request Resolver DocumentNode print mergeGraphQLSchemas
      this.
    split; intros x H; unfold ownTypeDefs; by rewrite H.
Qed.

(** ** Claims on the context *)

(** C2, on the code. The composed context builder does not call the
    builder of the first import, and it does not fold the results of the
    later ones into the aggregate. A module with a single import calls its
    own builder alone, with the imported module object as current
    context, and assigns the result to the aggregate: the outcome does not
    depend on the import's options. Auth imports User only: its composed
    context builder returns the aggregate after one call, that of Auth's
    own builder, which received the User module object; User's builder is
    not called. The aggregate holds Auth's field when the builder returns
    an object and nothing more than [injector] when it is [async]. App
    imports Auth and Blog: with the aggregate [{ injector }] that
    [context] passes, the loop assigns the aggregate to the Auth module
    object and raises the [TypeError] of assigning to [injector], which
    has a getter only; with an empty aggregate the call returns after the
    builders of Blog and App were called, not those of Auth and User, and
    Blog's field has landed on the Auth module object, not in the
    aggregate. *)
Theorem contextBuilder_skips_first_import :
  (forall (modules : ModuleRef -> SampleModule) fuel this first request
          builtResult builtResultIsModule inj
          (w : World (Injector := list (Provider string))),
      imports (modules this) = [first] ->
      contextBuilder modules (S fuel) this request builtResult
        builtResultIsModule inj w
      = (st ← Object_assign (log_call w this (VRef first)) modules
                builtResult builtResultIsModule
                (SourceFields
                   (result_fields
                      (match options_contextBuilder (_options (modules this))
                       with
                       | Some b => b
                       | None => fun _ _ _ _ => ResultUndefined
                       end (objects w) request (VRef first) inj)));
         Returns (builtResult, fst st, snd st)))
  /\
  (forall async,
      exists w modules',
        contextBuilder (app_modules async) 3 1 "req" 201 false (VRef 200)
          request_world = Returns (201, w, modules') /\
        calls w = [(1, VRef 2)] /\
        objects w !! 201
        = Some (if async then [("injector", VRef 200)]
                else [("injector", VRef 200);
                      ("authenticatedUser", VNumber 1)]))
  /\
  (forall async,
      contextBuilder (app_modules async) 3 0 "req" 201 false (VRef 200)
        request_world
      = Throws (getter_only "injector"))
  /\
  exists w modules',
    contextBuilder (app_modules false) 3 0 "req" 201 false (VRef 200)
      bare_world = Returns (201, w, modules') /\
    calls w = [(3, VRef 2); (0, VRef 1)] /\
    objects w !! 201 = Some [("app", VNumber 0)] /\
    objects w !! 1 = Some (module_object 110 ++ [("posts", VNumber 3)]).
Proof.
  split; [|split; [|split]].
  - intros modules fuel this first request builtResult isModule inj w Himports.
    cbn [contextBuilder]. rewrite Himports. cbn [foldM].
    rewrite bind_Returns. cbn beta iota zeta.
    by destruct (Object_assign _ _ _ _ _) as [[w' modules']| | |].
  - intros []; eexists; eexists; (split; [reflexivity|]); split; reflexivity.
  - intros []; reflexivity.
  - eexists. eexists. split; [reflexivity|]. repeat split; reflexivity.
Qed.

(** C8, on the code. For every module without imports, and so for User, [context] builds
    the injector and the aggregate and then raises the [TypeError] of
    [reduce] on an empty array: no context is returned. For Auth, which has
    an import, it returns the aggregate seeded with a new injector. *)
Theorem context_without_imports_throws :
  (forall (modules : ModuleRef -> SampleModule) fuel this request
          (w : World (Injector := list (Provider string))),
      imports (modules this) = [] ->
      context [] sample_provide sample_init modules (S fuel) this request w
      = Throws (TypeError "Reduce of empty array with no initial value"))
  /\
  (forall async fuel request,
      context [] sample_provide sample_init (app_modules async)
        (S (S fuel)) 2 request request_world
      = Throws (TypeError "Reduce of empty array with no initial value"))
  /\
  exists w,
    context [] sample_provide sample_init (app_modules false) 3 1 "req"
      request_world = Returns (203, w) /\
    objects w !! 203
    = Some [("injector", VRef 202); ("authenticatedUser", VNumber 1)] /\
    injectors w !! 202
    = Some [ValueProvider (SymbolFor "ModuleConfig.User") "";
            ClassProvider "Users";
            ValueProvider (SymbolFor "ModuleConfig.Auth") ""].
Proof.
  split; [|split].
  - intros modules fuel this request w Himports.
    unfold context, injector. cbn [providers contextBuilder].
    by rewrite Himports.
  - intros async fuel request. reflexivity.
  - eexists. split; [reflexivity|]. split; reflexivity.
Qed.

(** * Further properties *)

(** ** [chainFunctions] and [asArray] *)

Section ChainFacts.
Context {Resolver : Type}.
Implicit Types (a b : JsFunction (Resolver := Resolver))
  (funcs : list (JsFunction (Resolver := Resolver))).

Lemma fold_nested a b funcs args :
  fold_left (fun a b => fun args => a [b args]) (b :: funcs) a args
  = a [nested_call (b :: funcs) args].
Proof.
  revert a b. induction funcs as [|c funcs IH]; intros a b; [done|].
  change (fold_left (fun a b => fun args => a [b args]) (c :: funcs)
            (fun args => a [b args]) args
          = a [b [nested_call (c :: funcs) args]]).
  by rewrite IH.
Qed.

Lemma chainFunctions_cons a funcs :
  exists fn,
    chainFunctions (a :: funcs) = Returns fn /\
    forall args, fn args = nested_call (a :: funcs) args.
Proof.
  destruct funcs as [|b funcs]; [by eexists|].
  eexists. split; [done|]. intros args. apply fold_nested.
Qed.

Lemma nested_call_app a funcs b funcs' args :
  nested_call ((a :: funcs) ++ b :: funcs') args
  = nested_call (a :: funcs) [nested_call (b :: funcs') args].
Proof.
  revert a. induction funcs as [|c funcs IH]; intros a; [done|].
  change (a [nested_call ((c :: funcs) ++ b :: funcs') args]
          = a [nested_call (c :: funcs) [nested_call (b :: funcs') args]]).
  by rewrite IH.
Qed.
End ChainFacts.

(** X1. [chainFunctions] raises a [TypeError] on the empty array, returns
    the function itself for an array of one, and otherwise returns a
    function that passes its arguments to the last function and the result
    of each function, as a single argument, to the function before it. *)
Theorem chainFunctions_nesting {Resolver : Type} :
  chainFunctions (Resolver := Resolver) []
  = Throws (TypeError "Reduce of empty array with no initial value")
  /\
  (forall fn : JsFunction (Resolver := Resolver),
      chainFunctions [fn] = Returns fn)
  /\
  forall (first : JsFunction (Resolver := Resolver)) rest,
  exists chained,
    chainFunctions (first :: rest) = Returns chained /\
    forall args, chained args = nested_call (first :: rest) args.
Proof.
  split; [done|]. split; [done|]. intros first rest.
  apply chainFunctions_cons.
Qed.

(** X2. Chaining is associative: the chain of two arrays put end to end
    behaves as the chain of the two chained functions. *)
Theorem chainFunctions_append {Resolver : Type}
    (a : JsFunction (Resolver := Resolver)) funcs
    (b : JsFunction (Resolver := Resolver)) funcs' :
  exists left right whole pair,
    chainFunctions (a :: funcs) = Returns left /\
    chainFunctions (b :: funcs') = Returns right /\
    chainFunctions ((a :: funcs) ++ b :: funcs') = Returns whole /\
    chainFunctions [left; right] = Returns pair /\
    forall args, whole args = pair args.
Proof.
  destruct (chainFunctions_cons a funcs) as (left & Hl & Hleft).
  destruct (chainFunctions_cons b funcs') as (right & Hr & Hright).
  destruct (chainFunctions_cons a (funcs ++ b :: funcs'))
    as (whole & Hw & Hwhole).
  exists left, right, whole, (fun args => left [right args]).
  split; [done|]. split; [done|]. split; [done|]. split; [done|].
  intros args. rewrite Hwhole, Hleft, Hright.
  apply (nested_call_app a funcs b funcs').
Qed.

Section ArrayFormFacts.
Context {Resolver : Type}.
Implicit Types (r : IResolvers Resolver)
  (M : IResolversComposerMapping Resolver).

Lemma has_key_arrayForm M path : has_key (arrayForm M) path = has_key M path.
Proof.
  unfold has_key, arrayForm. induction M as [|[p fns] M IH]; simpl; [done|].
  by destruct (String.eqb p path).
Qed.

Lemma resolveRelevantMappings_arrayForm r path M :
  resolveRelevantMappings r path (arrayForm M)
  = resolveRelevantMappings r path M.
Proof.
  unfold resolveRelevantMappings.
  destruct (split dot path) as [|t [|f [|? ?]]]; try done.
  destruct (String.eqb f "*"); [|done].
  destruct (prop_get r t); [|done]. f_equal.
  apply list_filter_iff. intros p. by rewrite has_key_arrayForm.
Qed.

Lemma foldM_ext {A S : Type} (f g : S -> A -> outcome S) xs (s : S) :
  (forall s x, In x xs -> f s x = g s x) -> foldM f xs s = foldM g xs s.
Proof.
  revert s. induction xs as [|x xs IH]; intros s H; simpl; [done|].
  rewrite (H s x) by (by left). destruct (g s x); simpl; try done.
  apply IH. intros s' y Hy. apply H. by right.
Qed.
End ArrayFormFacts.

(** X3. A composer given alone and the same composer given as an array of
    one are interchangeable: replacing every value [fn] of the mapping
    that is a function by the array [[fn]] does not change what
    [composeResolvers] does. *)
Theorem composeResolvers_arrayForm {Resolver : Type}
    (resolvers : IResolvers Resolver)
    (mapping : IResolversComposerMapping Resolver) :
  composeResolvers resolvers (arrayForm mapping)
  = composeResolvers resolvers mapping.
Proof.
  unfold composeResolvers.
  assert (Hstep : forall r entry,
             composeEntry (arrayForm mapping) r
               (fst entry,
                match snd entry with
                | Single fn => Multiple [fn]
                | Multiple fns => Multiple fns
                end)
             = composeEntry mapping r entry).
  { intros r [path fns]. unfold composeEntry. simpl fst. simpl snd.
    rewrite resolveRelevantMappings_arrayForm.
    destruct (resolveRelevantMappings r path mapping); try done.
    by destruct fns. }
  assert (Hfold : forall entries r,
             foldM (composeEntry (arrayForm mapping)) (arrayForm entries) r
             = foldM (composeEntry mapping) entries r).
  { induction entries as [|entry entries IH]; intros r; [done|].
    change (arrayForm (entry :: entries))
      with ((fst entry,
             match snd entry with
             | Single fn => Multiple [fn]
             | Multiple fns => Multiple fns
             end) :: arrayForm entries).
    cbn [foldM]. rewrite Hstep.
    destruct (composeEntry mapping r entry); simpl; [apply IH | done..]. }
  apply Hfold.
Qed.

(** ** [composeResolvers]: what every field ends with *)

Section FinalValueFacts.
Context {Resolver : Type}.
Implicit Types (r : IResolvers Resolver)
  (M : IResolversComposerMapping Resolver).







End FinalValueFacts.





(** ** [composeResolvers]: missing targets, errors, sequencing *)

Section EdgeFacts.
Context {Resolver : Type}.
Implicit Types (r : IResolvers Resolver) (path : string)
  (fns : ComposeFns Resolver) (M : IResolversComposerMapping Resolver).






Lemma has_key_prop_set_eq {V : Type} (o : list (string * V)) k k' v :
  has_key (prop_set o k v) k' = has_key o k' || String.eqb k' k.
Proof.
  unfold has_key. destruct (String.eqb k' k) eqn:E.
  - apply String.eqb_eq in E. subst k'. rewrite prop_get_set_eq.
    by rewrite orb_true_r.
  - apply String.eqb_neq in E.
    rewrite prop_get_set_ne by done. by rewrite orb_false_r.
Qed.



Lemma is_wildcard_composeEntry M M' r path fns :
  is_wildcard path = false ->
  composeEntry M r (path, fns) = composeEntry M' r (path, fns).
Proof.
  unfold is_wildcard, composeEntry, resolveRelevantMappings.
  destruct (split dot path) as [|t [|f [|? ?]]]; try done.
  by intros ->.
Qed.

End EdgeFacts.

Section EdgeTheoremFacts.
Context {Resolver : Type}.
Implicit Types (r : IResolvers Resolver) (path : string)
  (fns : ComposeFns Resolver) (M : IResolversComposerMapping Resolver).







End EdgeTheoremFacts.





Lemma inherited_name_no_dot (name : string) :
  inherited_name name = true -> no_dot name = true.
Proof.
  unfold inherited_name, object_prototype_names. cbn [existsb].
  repeat match goal with
         | |- context [String.eqb name ?k] =>
             destruct (String.eqb_spec name k) as [->|_];
               [intros _; reflexivity|]
         end.
  cbn [orb]. discriminate.
Qed.

(** X19. A wildcard [Type.*] whose type the resolver map does not own,
    but whose name every object inherits ([constructor], [toString],
    ...), raises nothing and matches no field: [resolvers[Type]] is the
    inherited function, which has no enumerable property, and the entry
    leaves the resolver map as it was. *)
Theorem wildcard_inherited_type {Resolver : Type}
    (resolvers : IResolvers Resolver)
    (allMappings : IResolversComposerMapping Resolver)
    (typeName : string) (fns : ComposeFns Resolver) :
  inherited_name typeName = true ->
  prop_get resolvers typeName = None ->
  resolveRelevantMappings resolvers (typeName +:+ ".*") allMappings
  = Returns [] /\
  composeEntry allMappings resolvers (typeName +:+ ".*", fns)
  = Returns resolvers /\
  composeResolvers resolvers [(typeName +:+ ".*", fns)] = Returns resolvers.
Proof.
  intros Hinh Hnone.
  assert (Hexp : forall M,
             resolveRelevantMappings resolvers (typeName +:+ ".*") M
             = Returns []).
  { intros M. unfold resolveRelevantMappings.
    change (typeName +:+ ".*") with (typeName +:+ "." +:+ "*").
    rewrite (split_path typeName "*" (inherited_name_no_dot _ Hinh) eq_refl).
    cbn [String.eqb Ascii.eqb Bool.eqb]. by rewrite Hnone, Hinh. }
  split; [apply Hexp|].
  unfold composeResolvers. cbn [foldM]. unfold composeEntry.
  by rewrite !Hexp.
Qed.

Lemma wildcard_inherited_type_witness :
  resolveRelevantMappings sample_resolvers "constructor.*" sample_mapping
  = Returns [] /\
  composeEntry sample_mapping sample_resolvers
    ("constructor.*", Single (wrapper "log"))
  = Returns sample_resolvers /\
  composeResolvers sample_resolvers
    [("constructor.*", Single (wrapper "log"))]
  = Returns sample_resolvers.
Proof.
  exact (wildcard_inherited_type sample_resolvers sample_mapping
           "constructor" (Single (wrapper "log")) eq_refl eq_refl).
Defined.

(** X8. When no key of two mappings is a wildcard, composing with the two
    mappings put end to end is composing with the first and then, on its
    result, with the second. *)
Theorem composeResolvers_sequence {Resolver : Type}
    (resolvers : IResolvers Resolver)
    (first second : IResolversComposerMapping Resolver) :
  Forall (fun path => is_wildcard path = false) (keys (first ++ second)) ->
  composeResolvers resolvers (first ++ second)
  = (composed1 ← composeResolvers resolvers first;
     composeResolvers composed1 second).
Proof.
  intros Hnw. unfold composeResolvers. rewrite foldM_app.
  assert (Hext : forall M' entries r,
             (forall e, In e entries -> In e (first ++ second)) ->
             foldM (composeEntry (first ++ second)) entries r
             = foldM (composeEntry M') entries r).
  { intros M' entries r Hsub. apply foldM_ext. intros s [p fns] Hin.
    apply is_wildcard_composeEntry.
    rewrite Forall_forall in Hnw. apply Hnw, list_elem_of_In.
    apply (in_map fst (first ++ second) (p, fns)). by apply Hsub. }
  rewrite (Hext first first resolvers)
    by (intros e He; apply in_or_app; by left).
  destruct (foldM (composeEntry first) first resolvers); simpl; try done.
  apply Hext. intros e He. apply in_or_app. by right.
Qed.

Lemma composeResolvers_sequence_witness :
  composeResolvers sample_resolvers
    ([("Query.me", Single (wrapper "auth"))]
       ++ [("User.id", Single (wrapper "log")); ("Query", Single (wrapper "x"))])
  = (composed1 ← composeResolvers sample_resolvers
                   [("Query.me", Single (wrapper "auth"))];
     composeResolvers composed1
       [("User.id", Single (wrapper "log")); ("Query", Single (wrapper "x"))]).
Proof.
  exact (composeResolvers_sequence sample_resolvers
           [("Query.me", Single (wrapper "auth"))]
           [("User.id", Single (wrapper "log")); ("Query", Single (wrapper "x"))]
           ltac:(by repeat constructor)).
Defined.



(** ** The getters over the import graph *)

Section ReachFacts.
Context {Config Request Resolver DocumentNode : Type}.
Variable modules :
  ModuleRef ->
  GraphQLModule (Config := Config) (Request := Request)
    (Resolver := Resolver) (DocumentNode := DocumentNode).

Lemma In_concat_reverse {A : Type} (x : A) (xss : list (list A)) :
  In x (concat (reverse xss)) <-> exists xs, In xs xss /\ In x xs.
Proof.
  rewrite in_concat. split; intros (xs & Hxs & Hx); exists xs;
    (split; [|exact Hx]); apply list_elem_of_In;
    apply list_elem_of_In in Hxs; by apply elem_of_reverse.
Qed.

Lemma providers_members rank fuel this :
  acyclic modules rank -> rank this < fuel ->
  exists ps,
    providers modules fuel this = Returns ps /\
    forall p,
      In p ps <->
      exists m, reaches modules this m /\ In p (ownProviders (modules m)).
Proof.
  intros Hrank. revert this.
  induction fuel as [|fuel IH]; intros this Hlt; [lia|].
  destruct (walk_unfold modules
              (fun this imported =>
                 concat (reverse imported) ++ ownProviders (modules this))
              rank (S fuel) this Hrank Hlt) as (imported & Himp & Hthis).
  rewrite <- providers_walk in Hthis.
  exists (concat (reverse imported) ++ ownProviders (modules this)).
  split; [exact Hthis|]. intros p. rewrite in_app_iff, In_concat_reverse.
  split.
  - intros [(ps & Hps & Hp)|Hown].
    + apply list_elem_of_In, list_elem_of_lookup in Hps as [i Hi].
      destruct (Forall2_lookup_r _ _ _ _ _ Himp Hi) as (module & Hmodule & Hret).
      assert (Hin : In module (imports (modules this))).
      { apply list_elem_of_In, list_elem_of_lookup. by exists i. }
      pose proof (Hrank this module Hin) as Hlt'.
      destruct (IH module ltac:(lia)) as (ps' & Hps' & Hmem).
      pose proof (Hret fuel ltac:(lia)) as Hret'.
      rewrite <- providers_walk in Hret'.
      assert (ps' = ps) as -> by congruence.
      destruct (proj1 (Hmem p) Hp) as (m & Hreach & Hm).
      exists m. split; [|done]. by apply (reaches_import _ this module).
    + exists this. split; [constructor | done].
  - intros (m & Hreach & Hm). inversion Hreach as [|? module ? Hin Hreach'];
      subst; [by right|]. left.
    apply list_elem_of_In, list_elem_of_lookup in Hin as [i Hi].
    destruct (Forall2_lookup_l _ _ _ _ _ Himp Hi) as (ps & Hps & Hret).
    assert (Hin : In module (imports (modules this))).
    { apply list_elem_of_In, list_elem_of_lookup. by exists i. }
    pose proof (Hrank this module Hin) as Hlt'.
    destruct (IH module ltac:(lia)) as (ps' & Hps' & Hmem).
    pose proof (Hret fuel ltac:(lia)) as Hret'.
    rewrite <- providers_walk in Hret'.
    assert (ps' = ps) as -> by congruence.
    exists ps. split.
    + apply list_elem_of_In, list_elem_of_lookup. by exists i.
    + apply Hmem. by exists m.
Qed.
End ReachFacts.

(** X10. In an import graph without cycles, the list of [providers]
    holds exactly the own providers of the modules that the module
    reaches through its imports, itself included: nothing is lost and
    nothing else is added. In particular the [ModuleConfig] provider of
    every module reached is in the list. *)
Theorem providers_of_reachable_modules
    {Config Request Resolver DocumentNode : Type}
    (modules : ModuleRef ->
               GraphQLModule (Config := Config) (Request := Request)
                 (Resolver := Resolver) (DocumentNode := DocumentNode))
    (rank : ModuleRef -> nat) (fuel : nat) (this : ModuleRef) :
  acyclic modules rank -> rank this < fuel ->
  exists ps,
    providers modules fuel this = Returns ps /\
    (forall p,
        In p ps <->
        exists m, reaches modules this m /\ In p (ownProviders (modules m)))
    /\
    forall m,
      reaches modules this m ->
      In (ValueProvider (ModuleConfig (inr (modules m)))
            (_moduleConfig (modules m))) ps.
Proof.
  intros Hrank Hlt.
  destruct (providers_members modules rank fuel this Hrank Hlt)
    as (ps & Hps & Hmem).
  exists ps. split; [done|]. split; [done|].
  intros m Hreach. apply Hmem. exists m. split; [done|]. by left.
Qed.

Lemma providers_of_reachable_modules_witness :
  exists ps,
    providers (app_modules true) 3 0 = Returns ps /\
    (forall p,
        In p ps <->
        exists m, reaches (app_modules true) 0 m /\
                  In p (ownProviders (app_modules true m)))
    /\
    forall m,
      reaches (app_modules true) 0 m ->
      In (ValueProvider (ModuleConfig (inr (app_modules true m)))
            (_moduleConfig (app_modules true m))) ps.
Proof.
  exact (providers_of_reachable_modules (app_modules true) app_rank 3 0
           (app_modules_acyclic true) ltac:(simpl; lia)).
Defined.

(** X11. In an import graph without cycles the [resolvers] getter
    returns what [mergeResolvers] makes of the merged resolvers of the
    imports, in import order, followed by the module's own map: the own
    map is the last one handed to the merge. *)
Theorem resolvers_imports_then_own
    {Config Request Resolver DocumentNode : Type}
    (mergeResolvers : list (IResolvers Resolver) -> IResolvers Resolver)
    (modules : ModuleRef ->
               GraphQLModule (Config := Config) (Request := Request)
                 (Resolver := Resolver) (DocumentNode := DocumentNode))
    (rank : ModuleRef -> nat) (fuel : nat) (this : ModuleRef) :
  acyclic modules rank -> rank this < fuel ->
  exists imported,
    Forall2 (fun module r =>
               forall fuel', rank module < fuel' ->
                             resolvers mergeResolvers modules fuel' module
                             = Returns r)
      (imports (modules this)) imported /\
    resolvers mergeResolvers modules fuel this
    = Returns
        (mergeResolvers
           (imported ++
            [match options_resolvers (_options (modules this)) with
             | Some (ResolversFunction f) => f (_moduleConfig (modules this))
             | Some (ResolversLiteral r) => r
             | None => []
             end])).
Proof.
  intros Hrank Hlt.
  destruct (walk_unfold modules
              (fun this imported =>
                 mergeResolvers (imported ++ [ownResolvers (modules this)]))
              rank fuel this Hrank Hlt) as (imported & Himp & Hthis).
  exists imported. split.
  - eapply Forall2_impl; [exact Himp|]. intros m r H fuel' Hfuel'.
    rewrite resolvers_walk. by apply H.
  - rewrite resolvers_walk. exact Hthis.
Qed.

Lemma resolvers_imports_then_own_witness :
  exists imported,
    Forall2 (fun module r =>
               forall fuel', app_rank module < fuel' ->
                             resolvers sample_mergeResolvers (app_modules true)
                               fuel' module = Returns r)
      [2] imported /\
    resolvers sample_mergeResolvers (app_modules true) 2 1
    = Returns
        (sample_mergeResolvers
           (imported ++
            [[("User", [("id", Some "id")]); ("Query", [("me", Some "me")])]])).
Proof.
  exact (resolvers_imports_then_own sample_mergeResolvers (app_modules true)
           app_rank 2 1 (app_modules_acyclic true) ltac:(simpl; lia)).
Defined.

(** X17. In an import graph without cycles the [typeDefs] getter
    returns the merge of the [typeDefs] of the imports, in import order,
    followed by the module's own fragment; so for A importing B importing
    C it is the merge of B's [typeDefs] then A's fragment, B's being the
    merge of C's then B's fragment. The own fragment is one string when
    it is declared as a non-empty string (that string), as a list (its
    merge) or as a document (its print); it is what the function returns
    when it is declared as a function of the configuration; and it is the
    empty list when it is left out or is the empty string. *)
Theorem typeDefs_imports_then_own
    {Config Request Resolver DocumentNode : Type}
    (print : DocumentNode -> string)
    (mergeGraphQLSchemas : list (TypeDefs DocumentNode) -> string)
    (modules : ModuleRef ->
               GraphQLModule (Config := Config) (Request := Request)
                 (Resolver := Resolver) (DocumentNode := DocumentNode))
    (rank : ModuleRef -> nat) (fuel : nat) (this : ModuleRef) :
  acyclic modules rank -> rank this < fuel ->
  let get_typeDefs := typeDefs print mergeGraphQLSchemas modules in
  let own m := ownTypeDefs print mergeGraphQLSchemas (modules m) in
  (exists imported,
      Forall2 (fun module sdl =>
                 forall fuel', rank module < fuel' ->
                               get_typeDefs fuel' module = Returns sdl)
        (imports (modules this)) imported /\
      get_typeDefs fuel this
      = Returns (mergeGraphQLSchemas
                   (map (fun sdl => One (SDL sdl)) imported ++ [own this])))
  /\
  (forall B C,
      imports (modules this) = [B] -> imports (modules B) = [C] ->
      imports (modules C) = [] ->
      get_typeDefs fuel this
      = Returns
          (mergeGraphQLSchemas
             [One (SDL (mergeGraphQLSchemas
                          [One (SDL (mergeGraphQLSchemas [own C])); own B]));
              own this]))
  /\
  (forall sdl, sdl <> "" ->
               options_typeDefs (_options (modules this))
               = Some (TypeDefsLiteral (One (SDL sdl))) ->
               own this = One (SDL sdl))
  /\
  (forall items,
      options_typeDefs (_options (modules this))
      = Some (TypeDefsLiteral (Many items)) ->
      own this = One (SDL (mergeGraphQLSchemas (map One items))))
  /\
  (forall document,
      options_typeDefs (_options (modules this))
      = Some (TypeDefsLiteral (One (AST document))) ->
      own this = One (SDL (print document)))
  /\
  (forall f,
      options_typeDefs (_options (modules this)) = Some (TypeDefsFunction f) ->
      own this = f (_moduleConfig (modules this)))
  /\
  (options_typeDefs (_options (modules this)) = None \/
   options_typeDefs (_options (modules this))
   = Some (TypeDefsLiteral (One (SDL ""))) ->
   own this = Many []).
Proof.
  intros Hrank Hlt get_typeDefs own.
  set (combine := fun this imported =>
         mergeGraphQLSchemas
           (map (fun s => One (SDL s)) imported
            ++ [ownTypeDefs print mergeGraphQLSchemas (modules this)])).
  assert (Hunfold : forall fuel this,
             rank this < fuel ->
             exists imported,
               Forall2 (fun module sdl =>
                          forall fuel', rank module < fuel' ->
                                        get_typeDefs fuel' module = Returns sdl)
                 (imports (modules this)) imported /\
               get_typeDefs fuel this = Returns (combine this imported)).
  { intros fuel0 this0 Hlt0.
    destruct (walk_unfold modules combine rank fuel0 this0 Hrank Hlt0)
      as (imported & Himp & Hthis).
    exists imported. unfold get_typeDefs. split.
    - eapply Forall2_impl; [exact Himp|]. intros m sdl H fuel' Hfuel'.
      rewrite typeDefs_walk. by apply H.
    - rewrite typeDefs_walk. exact Hthis. }
  split; [by apply Hunfold|]. split; [|repeat split].
  - intros B C HA HB HC.
    destruct (Hunfold fuel this Hlt) as (impA & HimpA & HtA).
    rewrite HA in HimpA. apply Forall2_cons_inv_l in HimpA
      as (sdlB & ? & HsdlB & HnilA & ->).
    apply Forall2_nil_inv_l in HnilA as ->.
    destruct (Hunfold (S (rank B)) B (Nat.lt_succ_diag_r _))
      as (impB & HimpB & HtB).
    rewrite HB in HimpB. apply Forall2_cons_inv_l in HimpB
      as (sdlC & ? & HsdlC & HnilB & ->).
    apply Forall2_nil_inv_l in HnilB as ->.
    destruct (Hunfold (S (rank C)) C (Nat.lt_succ_diag_r _))
      as (impC & HimpC & HtC).
    rewrite HC in HimpC. apply Forall2_nil_inv_l in HimpC as ->.
    rewrite (HsdlC _ (Nat.lt_succ_diag_r _)) in HtC.
    rewrite (HsdlB _ (Nat.lt_succ_diag_r _)) in HtB.
    injection HtC as ->. injection HtB as ->. exact HtA.
  - intros sdl Hne H. unfold own, ownTypeDefs. rewrite H. simpl.
    apply String.eqb_neq in Hne. by rewrite Hne.
  - intros items H. unfold own, ownTypeDefs. by rewrite H.
  - intros document H. unfold own, ownTypeDefs. by rewrite H.
  - intros f H. unfold own, ownTypeDefs. by rewrite H.
  - intros [H|H]; unfold own, ownTypeDefs; by rewrite H.
Qed.

Lemma typeDefs_imports_then_own_witness :
  typeDefs sample_print sample_mergeGraphQLSchemas (app_modules true) 3 4
  = Returns
      (sample_mergeGraphQLSchemas
         [One (SDL (sample_mergeGraphQLSchemas
                      [One (SDL (sample_mergeGraphQLSchemas
                                   [One (SDL "type User type Query")]));
                       One (SDL "type Query type User")]));
          One (SDL "type Gateway")]).
Proof.
  exact (proj1 (proj2 (typeDefs_imports_then_own sample_print
                         sample_mergeGraphQLSchemas (app_modules true)
                         app_rank 3 4 (app_modules_acyclic true)
                         ltac:(simpl; lia)))
           1 2 eq_refl eq_refl eq_refl).
Defined.

(** X12. The configuration token of a module depends on its name alone:
    it is the token asked for by that name, two modules have the same
    token exactly when they have the same name, and [withConfig] keeps
    the token while the [ModuleConfig] provider of the new module carries
    the new configuration. *)
Theorem ModuleConfig_by_name {Config Request Resolver DocumentNode : Type}
    (m1 m2 : GraphQLModule (Config := Config) (Request := Request)
               (Resolver := Resolver) (DocumentNode := DocumentNode))
    (config : Config) :
  ModuleConfig (inr m1)
  = ModuleConfig (Config := Config) (Request := Request)
      (Resolver := Resolver) (DocumentNode := DocumentNode)
      (inl (options_name (_options m1))) /\
  (ModuleConfig (inr m1) = ModuleConfig (inr m2) <->
   options_name (_options m1) = options_name (_options m2)) /\
  ModuleConfig (inr (withConfig m1 config)) = ModuleConfig (inr m1) /\
  hd_error (ownProviders (withConfig m1 config))
  = Some (ValueProvider (ModuleConfig (inr m1)) config).
Proof.
  split; [done|]. split; [|by split].
  unfold ModuleConfig. split.
  - intros H. injection H as H. exact H.
  - by intros ->.
Qed.

(** ** The context builder and the context *)

Section AssignFacts.
Implicit Types (source target props : list (string * value)) (k : string).

Lemma assign_props_has_key isModule source target props k :
  assign_props isModule source target = Returns props ->
  has_key target k = true -> has_key props k = true.
Proof.
  revert target. induction source as [|[key v] source IH]; intros target;
    simpl.
  - by intros [= <-].
  - destruct (String.eqb key "__proto__"); [done|].
    destruct (isModule && is_slot key); [done|].
    destruct (isModule && is_accessor key && negb (has_key target key));
      [done|].
    intros H Hk. apply (IH _ H). by apply has_key_prop_set.
Qed.

(** An assignment to a module adds no property named as an accessor. *)
Lemma assign_props_accessor source target props k :
  assign_props true source target = Returns props ->
  is_accessor k = true -> has_key props k = has_key target k.
Proof.
  intros H Hacc. revert target H.
  induction source as [|[key v] source IH]; intros target; simpl.
  - by intros [= <-].
  - destruct (String.eqb key "__proto__"); [done|].
    destruct (is_slot key); [done|].
    destruct (is_accessor key && negb (has_key target key)) eqn:Echeck;
      [done|].
    intros H. rewrite (IH _ H), has_key_prop_set_eq.
    destruct (String.eqb k key) eqn:Ek; [|apply orb_false_r].
    apply String.eqb_eq in Ek. subst key. rewrite Hacc in Echeck.
    simpl in Echeck. apply negb_false_iff in Echeck. by rewrite Echeck.
Qed.

(** A source that has such a property cannot be assigned to a module that
    lacks it. *)
Lemma assign_props_stuck source target props k :
  is_accessor k = true -> has_key source k = true ->
  has_key target k = false ->
  assign_props true source target <> Returns props.
Proof.
  intros Hacc. revert target.
  induction source as [|[key v] source IH]; intros target Hs Ht; simpl.
  - done.
  - destruct (String.eqb key "__proto__"); [done|].
    destruct (is_slot key); [done|].
    destruct (String.eqb key k) eqn:Ek.
    + apply String.eqb_eq in Ek. subst key. by rewrite Hacc, Ht.
    + destruct (is_accessor key && negb (has_key target key)); [done|].
      apply IH.
      * unfold has_key in *. simpl in Hs. by rewrite Ek in Hs.
      * rewrite has_key_prop_set_eq, Ht, String.eqb_sym, Ek. done.
Qed.
End AssignFacts.

Section ContextFacts.
Context {Config Request Resolver DocumentNode Injector : Type}.
#[local] Abbreviation Table :=
  (ModuleRef ->
   GraphQLModule (Config := Config) (Request := Request)
     (Resolver := Resolver) (DocumentNode := DocumentNode)).
Implicit Types (w : World (Injector := Injector)) (x target : loc)
  (modules : Table).

Lemma own_props_insert_eq w target props w' :
  objects w' = <[target := props]> (objects w) ->
  own_props w' target = props.
Proof.
  intros H. unfold own_props. rewrite H. unfold Heap in *.
  by rewrite lookup_insert_eq.
Qed.

Lemma own_props_insert_ne w target props w' x :
  objects w' = <[target := props]> (objects w) -> x <> target ->
  own_props w' x = own_props w x.
Proof.
  intros H Hne. unfold own_props. rewrite H. unfold Heap in *.
  by rewrite lookup_insert_ne.
Qed.

(** What an [Object.assign] that returns has done. *)
Lemma Object_assign_effect w modules target isModule source w' modules' :
  Object_assign w modules target isModule source = Returns (w', modules') ->
  next w' = next w /\
  injectors w' = injectors w /\
  calls w' = calls w /\
  (forall x, x <> target -> objects w' !! x = objects w !! x) /\
  (forall x k, has_key (own_props w x) k = true ->
               has_key (own_props w' x) k = true) /\
  (isModule = true ->
   forall x k, is_accessor k = true ->
               has_key (own_props w' x) k = has_key (own_props w x) k) /\
  (forall m, m <> target -> modules' m = modules m) /\
  (forall m, modules' m = modules m \/ exists s, modules' m = modules s).
Proof.
  unfold Object_assign.
  set (fields := match source with
                 | SourceModule l | SourceObject l => own_props w l
                 | SourceFields fields => fields
                 end).
  intros H.
  assert (Hprops : exists props,
             assign_props isModule fields (own_props w target)
             = Returns props /\
             w' = match fields with
                  | [] => w
                  | _ => {| objects := <[target := props]> (objects w);
                            injectors := injectors w;
                            next := next w;
                            calls := calls w |}
                  end /\
             modules' = match source with
                        | SourceModule module =>
                            set_module modules target (modules module)
                        | _ => modules
                        end).
  { destruct source as [l|l|fs]; [destruct isModule; [|done]|..];
      destruct (assign_props _ fields (own_props w target)) as [props| | |];
      try done; rewrite bind_Returns in H; injection H as <- <-;
      by exists props. }
  clear H. destruct Hprops as (props & Hassign & -> & ->).
  assert (Hobj : fields = [] \/
                 exists w1,
                   match fields with
                   | [] => w
                   | _ => {| objects := <[target := props]> (objects w);
                             injectors := injectors w;
                             next := next w;
                             calls := calls w |}
                   end = w1 /\
                   objects w1 = <[target := props]> (objects w) /\
                   next w1 = next w /\ injectors w1 = injectors w /\
                   calls w1 = calls w).
  { destruct fields; [by left|]. right. by eexists. }
  assert (Htable : forall m,
             m <> target ->
             match source with
             | SourceModule module => set_module modules target (modules module)
             | _ => modules
             end m = modules m).
  { intros m Hm. destruct source; try done. unfold set_module.
    apply Nat.eqb_neq in Hm. by rewrite Hm. }
  assert (Hfrom : forall m,
             match source with
             | SourceModule module => set_module modules target (modules module)
             | _ => modules
             end m = modules m \/
             exists s,
               match source with
               | SourceModule module =>
                   set_module modules target (modules module)
               | _ => modules
               end m = modules s).
  { intros m. destruct source as [s|l|fs]; try by left.
    unfold set_module.
    destruct (Nat.eqb m target); [right; by exists s | by left]. }
  destruct Hobj as [Hnil|(w1 & -> & Hobjects & Hnext & Hinj & Hcalls)].
  - rewrite Hnil. by repeat split.
  - split; [done|]. split; [done|]. split; [done|].
    split; [|split; [|split; [|split; [done|done]]]].
    + intros x Hx. rewrite Hobjects. unfold Heap in *.
      by rewrite lookup_insert_ne.
    + intros x k Hk. destruct (decide (x = target)) as [->|Hne].
      * rewrite (own_props_insert_eq w target props w1 Hobjects).
        by apply (assign_props_has_key _ _ _ _ _ Hassign).
      * by rewrite (own_props_insert_ne w target props w1 x Hobjects Hne).
    + intros -> x k Hk. destruct (decide (x = target)) as [->|Hne].
      * rewrite (own_props_insert_eq w target props w1 Hobjects).
        by apply (assign_props_accessor _ _ _ _ Hassign).
      * by rewrite (own_props_insert_ne w target props w1 x Hobjects Hne).
Qed.

Lemma first_import_from modules modules' x :
  table_from modules modules' ->
  first_import modules' x -> first_import modules x.
Proof.
  intros Hfrom (this & rest & Himp). destruct (Hfrom this) as [s Hs].
  exists s, rest. by rewrite <- Hs.
Qed.

Lemma table_from_trans modules modules1 modules2 :
  table_from modules modules1 -> table_from modules1 modules2 ->
  table_from modules modules2.
Proof.
  intros H1 H2 m. destruct (H2 m) as [s Hs]. destruct (H1 s) as [s' Hs'].
  exists s'. congruence.
Qed.

Lemma table_from_refl modules : table_from modules modules.
Proof. intros m. by exists m. Qed.

(** The loop over the imports after the first, for any function that
    behaves as the composed context builder does. *)
Lemma import_loop_effect
    (cb : Table -> ModuleRef -> loc -> World (Injector := Injector) ->
          outcome (loc * World (Injector := Injector) * Table))
    (modules : Table) (builtResult : loc) (builtResultIsModule : bool)
    (rest : list ModuleRef) :
  (forall modules1 module acc w out,
      cb modules1 module acc w = Returns out ->
      builder_effect modules1 module acc true w out) ->
  forall acc w modules1 out,
    first_import modules acc ->
    table_from modules modules1 ->
    foldM (fun (st : loc * World (Injector := Injector) * Table) module =>
             let '(acc, w, modules) := st in
             r ← cb modules module acc w;
             let '(result, w, modules) := r in
             st ← Object_assign w modules acc true (SourceModule result);
             let '(w, modules) := st in
             st ← Object_assign w modules acc true
                    (if builtResultIsModule
                     then SourceModule builtResult
                     else SourceObject builtResult);
             let '(w, modules) := st in
             Returns (acc, w, modules))
      rest (acc, w, modules1) = Returns out ->
    fst (fst out) = acc /\
    next (snd (fst out)) = next w /\
    injectors (snd (fst out)) = injectors w /\
    (exists mid, calls (snd (fst out)) = calls w ++ mid) /\
    (forall x, ~ first_import modules x ->
               objects (snd (fst out)) !! x = objects w !! x) /\
    (forall x, ~ first_import modules x -> snd out x = modules1 x) /\
    (forall x k, has_key (own_props w x) k = true ->
                 has_key (own_props (snd (fst out)) x) k = true) /\
    table_from modules (snd out) /\
    (forall x k, is_accessor k = true ->
                 has_key (own_props (snd (fst out)) x) k
                 = has_key (own_props w x) k).
Proof.
  intros Hcb.
  induction rest as [|module rest IH]; intros acc w modules1 out Hacc Hfrom
    Hloop.
  - injection Hloop as <-. simpl. repeat split; try done.
    exists []. by rewrite app_nil_r.
  - cbn [foldM] in Hloop.
    destruct (cb modules1 module acc w) as [[[result w1] modules2]| | |]
      eqn:Hcall; try done.
    rewrite bind_Returns in Hloop. cbn beta iota zeta in Hloop.
    destruct (Object_assign w1 modules2 acc true (SourceModule result))
      as [[w2 modules3]| | |] eqn:Ha1; try done.
    rewrite bind_Returns in Hloop. cbn beta iota zeta in Hloop.
    destruct (Object_assign w2 modules3 acc true
                (if builtResultIsModule then SourceModule builtResult
                 else SourceObject builtResult))
      as [[w3 modules4]| | |] eqn:Ha2; try done.
    rewrite !bind_Returns in Hloop. cbn beta iota zeta in Hloop.
    destruct (Hcb modules1 module acc w _ Hcall)
      as (_ & Hnext & Hinj & (first & rest' & mid & Himp & Hcalls)
          & Hframe & Htable & Hkeys & Hfrom2 & Hacc2).
    simpl in Hnext, Hinj, Hcalls, Hframe, Htable, Hkeys, Hfrom2, Hacc2.
    destruct (Object_assign_effect _ _ _ _ _ _ _ Ha1)
      as (Hn1 & Hi1 & Hc1 & Hf1 & Hk1 & Hacc1 & Ht1 & Hfr1).
    destruct (Object_assign_effect _ _ _ _ _ _ _ Ha2)
      as (Hn2 & Hi2 & Hc2 & Hf2 & Hk2 & Hacc3 & Ht2 & Hfr2).
    assert (Hfrom3 : table_from modules2 modules3).
    { intros m. destruct (Hfr1 m) as [->|[s ->]]; [by exists m|by exists s]. }
    assert (Hfrom4 : table_from modules3 modules4).
    { intros m. destruct (Hfr2 m) as [->|[s ->]]; [by exists m|by exists s]. }
    assert (Hfrom14 : table_from modules modules4).
    { eapply table_from_trans; [|exact Hfrom4].
      eapply table_from_trans; [|exact Hfrom3].
      eapply table_from_trans; [exact Hfrom|exact Hfrom2]. }
    destruct (IH acc w3 modules4 out Hacc Hfrom14 Hloop)
      as (Hfst & Hnext' & Hinj' & (mid' & Hcalls') & Hframe' & Htable'
          & Hkeys' & Hfrom' & Hacc').
    split; [done|]. split; [congruence|]. split; [congruence|].
    split; [|split; [|split; [|split; [|split]]]].
    + exists ((mid ++ [(module, VRef first)]) ++ mid').
      rewrite Hcalls', Hc2, Hc1, Hcalls. by rewrite !app_assoc.
    + intros x Hx. assert (Hne : x <> acc) by (by intros ->).
      rewrite (Hframe' x Hx), (Hf2 x Hne), (Hf1 x Hne).
      apply Hframe; [done|]. intros H. apply Hx.
      by apply (first_import_from modules modules1).
    + intros x Hx. assert (Hne : x <> acc) by (by intros ->).
      rewrite (Htable' x Hx), (Ht2 x Hne), (Ht1 x Hne).
      apply Htable. intros H. apply Hx.
      by apply (first_import_from modules modules1).
    + intros x k Hk. by apply Hkeys', Hk2, Hk1, Hkeys.
    + done.
    + intros x k Hk.
      rewrite (Hacc' x k Hk), (Hacc3 eq_refl x k Hk), (Hacc1 eq_refl x k Hk).
      by apply Hacc2.
Qed.

Lemma contextBuilder_effect modules fuel this request builtResult isModule
    inj w out :
  contextBuilder modules fuel this request builtResult isModule inj w
  = Returns out ->
  builder_effect modules this builtResult isModule w out.
Proof.
  revert modules this builtResult isModule w out.
  induction fuel as [|fuel IH];
    intros modules this builtResult isModule w out H; [done|].
  cbn [contextBuilder] in H.
  destruct (imports (modules this)) as [|first rest] eqn:Himp; [done|].
  match type of H with
  | (foldM ?F rest (first, w, modules) ≫= _) = _ =>
      destruct (foldM F rest (first, w, modules))
        as [[[acc w1] modules1]| | |] eqn:Hloop; try done
  end.
  rewrite bind_Returns in H. cbn beta iota zeta in H.
  match type of H with
  | (Object_assign ?w0 ?m0 ?t0 ?i0 ?s0 ≫= _) = _ =>
      destruct (Object_assign w0 m0 t0 i0 s0) as [[w2 modules2]| | |]
        eqn:Ha; try done
  end.
  rewrite bind_Returns in H. cbn beta iota zeta in H. injection H as <-.
  destruct (import_loop_effect
              (fun modules1 module acc w =>
                 contextBuilder modules1 fuel module request acc true inj w)
              modules builtResult isModule rest
              (fun modules1 module acc w out =>
                 IH modules1 module acc true w out)
              first w modules (acc, w1, modules1)
              (ex_intro _ this (ex_intro _ rest Himp))
              (table_from_refl modules) Hloop)
    as (Hacc & Hnext & Hinj & (mid & Hcalls) & Hframe & Htable & Hkeys
        & Hfrom & Haccs).
  simpl in Hacc, Hnext, Hinj, Hcalls, Hframe, Htable, Hkeys, Hfrom, Haccs.
  subst acc.
  destruct (Object_assign_effect _ _ _ _ _ _ _ Ha)
    as (Hn & Hi & Hc & Hf & Hk & Hacc & Ht & Hfr).
  simpl in Hn, Hi, Hc, Hf, Hk, Hacc.
  assert (Hsame : modules2 = modules1).
  { unfold Object_assign in Ha.
    destruct (assign_props _ _ _) in Ha; try done.
    rewrite bind_Returns in Ha. by injection Ha as _ <-. }
  subst modules2.
  unfold builder_effect. simpl.
  split; [done|]. split; [congruence|]. split; [congruence|].
  split; [|split; [|split; [|split; [|split]]]].
  - exists first, rest, mid. split; [done|].
    rewrite Hc. simpl. by rewrite Hcalls, app_assoc.
  - intros x Hx Hfirst. rewrite (Hf x Hx). simpl. by apply Hframe.
  - intros x Hx. by apply Htable.
  - intros x k Hk0. apply Hk.
    change (has_key (own_props w1 x) k = true). by apply Hkeys.
  - done.
  - intros His x k Hk0. rewrite (Hacc His x k Hk0).
    change (has_key (own_props w1 x) k = has_key (own_props w x) k).
    by apply Haccs.
Qed.
End ContextFacts.

(** X13. When the composed context builder of a module returns, what it
    returns is the aggregate object it was given; it has allocated no
    object and built no injector; and the last builder it called is the
    module's own, which received the module's first import, a module
    object, as its current context. *)
Theorem contextBuilder_returns_aggregate
    {Config Request Resolver DocumentNode Injector : Type}
    (modules modules' :
       ModuleRef ->
       GraphQLModule (Config := Config) (Request := Request)
         (Resolver := Resolver) (DocumentNode := DocumentNode))
    (fuel : nat) (this : ModuleRef) (request : Request) (builtResult : loc)
    (builtResultIsModule : bool) (inj : value)
    (w w' : World (Injector := Injector)) (aggregate : loc) :
  contextBuilder modules fuel this request builtResult builtResultIsModule
    inj w = Returns (aggregate, w', modules') ->
  aggregate = builtResult /\
  next w' = next w /\
  injectors w' = injectors w /\
  exists first rest earlier,
    imports (modules this) = first :: rest /\
    calls w' = calls w ++ earlier ++ [(this, VRef first)].
Proof.
  intros H.
  destruct (contextBuilder_effect modules fuel this request builtResult
              builtResultIsModule inj w _ H)
    as (Hfst & Hnext & Hinj & (first & rest & mid & Himp & Hcalls) & _).
  split; [done|]. split; [done|]. split; [done|]. by exists first, rest, mid.
Qed.

Lemma contextBuilder_returns_aggregate_witness :
  exists aggregate w' modules',
    contextBuilder (app_modules false) 3 0 "req" 201 false (VRef 200)
      bare_world = Returns (aggregate, w', modules') /\
    aggregate = 201 /\
    next w' = 202 /\
    injectors w' = injectors bare_world /\
    exists first rest earlier,
      imports (app_modules false 0) = first :: rest /\
      calls w' = [] ++ earlier ++ [(0, VRef first)].
Proof.
  eexists. eexists. eexists. split; [reflexivity|].
  exact (contextBuilder_returns_aggregate (app_modules false) _ 3 0 "req" 201
           false (VRef 200) bare_world _ _ eq_refl).
Defined.

(** X14. The composed context builder writes to the aggregate it was
    given and to module objects that are the first import of some module,
    and to nothing else: every other object keeps its properties, and
    every other module its options and configuration. It removes no
    property from any object, and the options and the configuration every
    module ends with are those some module had. *)
Theorem contextBuilder_writes
    {Config Request Resolver DocumentNode Injector : Type}
    (modules modules' :
       ModuleRef ->
       GraphQLModule (Config := Config) (Request := Request)
         (Resolver := Resolver) (DocumentNode := DocumentNode))
    (fuel : nat) (this : ModuleRef) (request : Request) (builtResult : loc)
    (builtResultIsModule : bool) (inj : value)
    (w w' : World (Injector := Injector)) (aggregate : loc) :
  contextBuilder modules fuel this request builtResult builtResultIsModule
    inj w = Returns (aggregate, w', modules') ->
  (forall x,
      x <> builtResult ->
      ~ (exists module rest, imports (modules module) = x :: rest) ->
      objects w' !! x = objects w !! x) /\
  (forall x,
      ~ (exists module rest, imports (modules module) = x :: rest) ->
      modules' x = modules x) /\
  (forall x k,
      has_key (own_props w x) k = true -> has_key (own_props w' x) k = true) /\
  (forall x, exists source, modules' x = modules source).
Proof.
  intros H.
  destruct (contextBuilder_effect modules fuel this request builtResult
              builtResultIsModule inj w _ H)
    as (_ & _ & _ & _ & Hframe & Htable & Hkeys & Hfrom & _).
  split; [exact Hframe|]. split; [exact Htable|].
  split; [exact Hkeys | exact Hfrom].
Qed.

Lemma contextBuilder_writes_witness :
  exists aggregate w' modules',
    contextBuilder (app_modules false) 3 0 "req" 201 false (VRef 200)
      bare_world = Returns (aggregate, w', modules') /\
    (forall x,
        x <> 201 ->
        ~ (exists module rest, imports (app_modules false module) = x :: rest) ->
        objects w' !! x = objects bare_world !! x) /\
    (forall x,
        ~ (exists module rest, imports (app_modules false module) = x :: rest) ->
        modules' x = app_modules false x) /\
    (forall x k,
        has_key (own_props bare_world x) k = true ->
        has_key (own_props w' x) k = true) /\
    (forall x, exists source, modules' x = app_modules false source).
Proof.
  eexists. eexists. eexists. split; [reflexivity|].
  exact (contextBuilder_writes (app_modules false) _ 3 0 "req" 201 false
           (VRef 200) bare_world _ _ eq_refl).
Defined.

(** X18. The loop of the composed context builder assigns modules to
    modules, and [Object.assign] copies [_options] and [_moduleConfig]
    with the rest. Third imports nothing, and its composed context
    builder, called by itself, raises the [TypeError] of [reduce]. In
    Main, which imports First, Second and Third, the call for Second
    (whose imports are Third and Fourth) assigns First to Third: from
    then on Third has the name, the imports, the builder and the
    configuration of First. The call for Third then returns, having
    called First's builder; Third's own builder is never called, and no
    field of an import reaches the aggregate. *)
Theorem contextBuilder_overwrites_options :
  imports (shadow_modules 3) = []
  /\
  contextBuilder shadow_modules 3 3 "req" 201 false (VRef 200) shadow_world
  = Throws (TypeError "Reduce of empty array with no initial value")
  /\
  exists w modules',
    contextBuilder shadow_modules 3 0 "req" 201 false (VRef 200) shadow_world
    = Returns (201, w, modules') /\
    modules' 3 = shadow_modules 1 /\
    (forall m, m <> 3 -> modules' m = shadow_modules m) /\
    calls w = [(4, VRef 5); (2, VRef 3); (3, VRef 5); (0, VRef 1)] /\
    objects w !! 201 = Some [("main", VNumber 0)] /\
    objects w !! 1
    = Some [("context", VRef 110); ("second", VNumber 2);
            ("first", VNumber 1)] /\
    objects w !! 3 = Some [("context", VRef 110); ("fourth", VNumber 4)].
Proof.
  split; [reflexivity|]. split; [reflexivity|].
  eexists. eexists. split; [vm_compute; reflexivity|].
  split; [vm_compute; reflexivity|]. split.
  - intros m Hm.
    destruct m as [|[|[|[|[|[|m]]]]]]; try (vm_compute; reflexivity).
    by destruct Hm.
  - repeat split; vm_compute; reflexivity.
Qed.

Section ContextEntryFacts.
Context {Config Request Resolver DocumentNode Injector : Type}.
Variable newInjector : Injector.
Variable injector_provide injector_init :
  Injector -> Provider Config -> Injector.
Variable modules :
  ModuleRef ->
  GraphQLModule (Config := Config) (Request := Request)
    (Resolver := Resolver) (DocumentNode := DocumentNode).

Lemma context_effect fuel this request (w w' : World (Injector := Injector))
    aggregate :
  context newInjector injector_provide injector_init modules fuel this
    request w = Returns (aggregate, w') ->
  aggregate = S (next w) /\
  next w' = S (S (next w)) /\
  has_key (own_props w' aggregate) "injector" = true /\
  exists i,
    injector newInjector injector_provide injector_init modules fuel this
    = Returns i /\
    injectors w' = <[next w := i]> (injectors w).
Proof.
  unfold context.
  destruct (injector newInjector injector_provide injector_init modules
              fuel this) as [i| | |]; try done.
  rewrite bind_Returns. cbn zeta.
  match goal with
  | |- (contextBuilder _ _ _ _ ?b ?f ?v ?w0 ≫= _) = _ -> _ =>
      destruct (contextBuilder modules fuel this request b f v w0)
        as [[[result w1] modules1]| | |] eqn:Hcb; try done
  end.
  rewrite bind_Returns. cbn beta iota zeta.
  match goal with
  | |- (Object_assign ?w0 ?m0 ?t0 ?i0 ?s0 ≫= _) = _ -> _ =>
      destruct (Object_assign w0 m0 t0 i0 s0) as [[w2 modules2]| | |]
        eqn:Ha; try done
  end.
  rewrite bind_Returns. intros [= <- <-].
  destruct (contextBuilder_effect _ _ _ _ _ _ _ _ _ Hcb)
    as (_ & Hnext & Hinj & _ & _ & _ & Hkeys & _).
  simpl in Hnext, Hinj, Hkeys.
  destruct (Object_assign_effect _ _ _ _ _ _ _ Ha)
    as (Hn & Hi & _ & _ & Hk & _).
  split; [done|]. split; [congruence|]. split.
  - apply Hk, Hkeys. unfold own_props. simpl.
    unfold Heap in *. by rewrite lookup_insert_eq.
  - exists i. split; [done|]. congruence.
Qed.

(** With a second import, the loop assigns the aggregate, which holds
    [injector], to the first import. *)
Lemma context_single fuel this request (w : World (Injector := Injector))
    out :
  (forall first rest,
      imports (modules this) = first :: rest ->
      first <> S (next w) /\
      has_key (own_props w first) "injector" = false) ->
  context newInjector injector_provide injector_init modules fuel this
    request w = Returns out ->
  exists first, imports (modules this) = [first].
Proof.
  intros Hfirst. unfold context.
  destruct (injector newInjector injector_provide injector_init modules
              fuel this) as [i| | |]; try done.
  rewrite bind_Returns. cbn zeta.
  set (w0 := {| objects := <[S (next w) := [("injector", VRef (next w))]]>
                             (objects w);
                injectors := <[next w := i]> (injectors w);
                next := S (S (next w));
                calls := calls w |}).
  destruct (contextBuilder modules fuel this request (S (next w)) false
              (VRef (next w)) w0) as [[[result w1] modules1]| | |] eqn:Hcb;
    try done.
  intros _. destruct fuel as [|fuel]; [done|].
  cbn [contextBuilder] in Hcb.
  destruct (imports (modules this)) as [|first [|second rest]] eqn:Himp;
    [done | by exists first |].
  exfalso. destruct (Hfirst first (second :: rest) eq_refl) as [Hne Hno].
  cbn [foldM] in Hcb.
  destruct (contextBuilder modules fuel second request first true
              (VRef (next w)) w0) as [[[r2 w2] modules2]| | |] eqn:Hinner;
    try done.
  rewrite !bind_Returns in Hcb. cbn beta iota zeta in Hcb.
  destruct (Object_assign w2 modules2 first true (SourceModule r2))
    as [[w3 modules3]| | |] eqn:Ha1; try done.
  rewrite !bind_Returns in Hcb. cbn beta iota zeta in Hcb.
  destruct (Object_assign w3 modules3 first true (SourceObject (S (next w))))
    as [[w4 modules4]| | |] eqn:Ha2; try done.
  destruct (contextBuilder_effect _ _ _ _ _ _ _ _ _ Hinner)
    as (_ & _ & _ & _ & _ & _ & Hkeys & _ & Hacc).
  simpl in Hkeys, Hacc.
  destruct (Object_assign_effect _ _ _ _ _ _ _ Ha1)
    as (_ & _ & _ & _ & Hk1 & Hacc1 & _).
  assert (Hagg : has_key (own_props w3 (S (next w))) "injector" = true).
  { apply Hk1, Hkeys. unfold own_props, w0. simpl. unfold Heap in *.
    by rewrite lookup_insert_eq. }
  assert (Htarget : has_key (own_props w3 first) "injector" = false).
  { rewrite (Hacc1 eq_refl first "injector" eq_refl).
    rewrite (Hacc eq_refl first "injector" eq_refl).
    unfold own_props, w0. simpl. unfold Heap in *.
    rewrite lookup_insert_ne by done. exact Hno. }
  unfold Object_assign in Ha2.
  destruct (assign_props true (own_props w3 (S (next w)))
              (own_props w3 first)) as [props| | |] eqn:Hassign; try done.
  by apply (assign_props_stuck _ _ props "injector" eq_refl Hagg Htarget).
Qed.
End ContextEntryFacts.

(** X15. [context] returns only for a module with exactly one import.
    With none it raises the [TypeError] of [reduce]; with two or more, the
    first step of the loop assigns the aggregate [{ injector }] to the
    first import, a module object, for which [injector] has a getter
    only: when the first import is not the new aggregate and has no
    property [injector] of its own, the call does not return. For App,
    which imports Auth and Blog, it raises that [TypeError]; for Auth,
    which imports User only, it returns. *)
Theorem context_returns_single_import :
  (forall {Config Request Resolver DocumentNode Injector : Type}
          (newInjector : Injector)
          (injector_provide injector_init :
             Injector -> Provider Config -> Injector)
          (modules : ModuleRef ->
                     GraphQLModule (Config := Config) (Request := Request)
                       (Resolver := Resolver) (DocumentNode := DocumentNode))
          (fuel : nat) (this : ModuleRef) (request : Request)
          (w : World (Injector := Injector))
          (out : loc * World (Injector := Injector)),
      (forall first rest,
          imports (modules this) = first :: rest ->
          first <> S (next w) /\
          has_key (own_props w first) "injector" = false) ->
      context newInjector injector_provide injector_init modules fuel this
        request w = Returns out ->
      exists first, imports (modules this) = [first])
  /\
  (forall async,
      context [] sample_provide sample_init (app_modules async) 3 0 "req"
        request_world
      = Throws (getter_only "injector"))
  /\
  forall async,
    imports (app_modules async 1) = [2] /\
    exists out,
      context [] sample_provide sample_init (app_modules async) 3 1 "req"
        request_world = Returns out.
Proof.
  split; [|split].
  - intros Config Request Resolver DocumentNode Injector newInjector
      injector_provide injector_init modules fuel this request w out Hfirst H.
    exact (context_single newInjector injector_provide injector_init modules
             fuel this request w out Hfirst H).
  - intros []; reflexivity.
  - intros []; (split; [reflexivity|]); eexists; reflexivity.
Qed.

Lemma context_returns_single_import_witness :
  exists first, imports (app_modules false 1) = [first].
Proof.
  refine (proj1 context_returns_single_import _ _ _ _ _ [] sample_provide
            sample_init (app_modules false) 3 1 "req" request_world _ _ _).
  - intros first rest [= <- <-]. split; [done | reflexivity].
  - reflexivity.
Defined.

(** X16. Every call of [context] that returns has built an injector of
    its own and an aggregate of its own: two calls in a row return
    different aggregate objects, each with an [injector] property, and
    record two injector objects, different but with the same content,
    that of the [injector] getter. *)
Theorem context_fresh_per_request
    {Config Request Resolver DocumentNode Injector : Type}
    (newInjector : Injector)
    (injector_provide injector_init :
       Injector -> Provider Config -> Injector)
    (modules : ModuleRef ->
               GraphQLModule (Config := Config) (Request := Request)
                 (Resolver := Resolver) (DocumentNode := DocumentNode))
    (fuel : nat) (this : ModuleRef) (request1 request2 : Request)
    (w w1 w2 : World (Injector := Injector)) (aggregate1 aggregate2 : loc) :
  context newInjector injector_provide injector_init modules fuel this
    request1 w = Returns (aggregate1, w1) ->
  context newInjector injector_provide injector_init modules fuel this
    request2 w1 = Returns (aggregate2, w2) ->
  aggregate1 <> aggregate2 /\
  has_key (own_props w1 aggregate1) "injector" = true /\
  has_key (own_props w2 aggregate2) "injector" = true /\
  exists i,
    injector newInjector injector_provide injector_init modules fuel this
    = Returns i /\
    next w <> next w1 /\
    injectors w2 !! next w = Some i /\
    injectors w2 !! next w1 = Some i.
Proof.
  intros H1 H2.
  destruct (context_effect _ _ _ _ _ _ _ _ _ _ H1)
    as (-> & Hnext1 & Hk1 & i & Hi & Hinj1).
  destruct (context_effect _ _ _ _ _ _ _ _ _ _ H2)
    as (-> & Hnext2 & Hk2 & i' & Hi' & Hinj2).
  assert (i' = i) as -> by congruence.
  split; [lia|]. split; [done|]. split; [done|].
  exists i. split; [done|]. split; [lia|].
  rewrite Hinj2, Hinj1. split.
  - rewrite lookup_insert_ne by lia. by rewrite lookup_insert_eq.
  - by rewrite lookup_insert_eq.
Qed.

Lemma context_fresh_per_request_witness :
  exists aggregate1 w1 aggregate2 w2,
    context [] sample_provide sample_init (app_modules false) 3 1 "first"
      request_world = Returns (aggregate1, w1) /\
    context [] sample_provide sample_init (app_modules false) 3 1 "second"
      w1 = Returns (aggregate2, w2) /\
    aggregate1 <> aggregate2 /\
    has_key (own_props w1 aggregate1) "injector" = true /\
    has_key (own_props w2 aggregate2) "injector" = true /\
    exists i,
      injector [] sample_provide sample_init (app_modules false) 3 1
      = Returns i /\
      next request_world <> next w1 /\
      injectors w2 !! next request_world = Some i /\
      injectors w2 !! next w1 = Some i.
Proof.
  eexists. eexists. eexists. eexists.
  split; [reflexivity|]. split; [reflexivity|].
  exact (context_fresh_per_request [] sample_provide sample_init
           (app_modules false) 3 1 "first" "second" request_world _ _ _ _
           eq_refl eq_refl).
Defined.
